(** * Expressive accumulator: a shallow embedding and its verified properties

    The development follows [src/include/expressive_accumulator.h] and
    [src/src/expressive_accumulator.cpp].

    The program rests on two external libraries.  The pairing library
    (scalar field [Fr], source groups [G1] and [G2] written additively,
    target group [GT] written multiplicatively, and the pairing) and the
    polynomial library (dense polynomials over [Fr] with an extended gcd)
    are not part of the repository: they enter as a record [Backend] of
    operations, whose documented contracts are the propositions
    [PairingLaws], [XgcdContract] and [IntEmbeds].  Polynomials over [Fr]
    are MathComp's [{poly Fr}]. *)

From HB Require Import structures.
From Stdlib Require Import ZArith Lia String.
Set Warnings "-notation-overridden,-ambiguous-paths,-rewrite-rw".
From mathcomp Require Import boot order algebra.
Set Warnings "notation-overridden,ambiguous-paths".

Set Implicit Arguments.
Unset Strict Implicit.
Unset Printing Implicit Defensive.

Import GRing.Theory Num.Theory Order.Theory.
Local Open Scope ring_scope.
Delimit Scope Z_scope with sz.

(** ** Machine integers *)

(** [size_t] is a 64-bit unsigned integer; arithmetic on it wraps. *)
Definition size_t_modulus : Z := Z.pow 2 64.
Definition size_t_wrap (z : Z) : Z := (z mod size_t_modulus)%sz.
Definition is_size_t (z : Z) : bool := (0 <=? z)%sz && (z <? size_t_modulus)%sz.

(** [int] is a 32-bit signed integer.  The program never does arithmetic on
    set elements: it stores, compares and converts them to [Fr], and converts
    an index to [size_t].  A C++ [int] is therefore an integer [x : int]
    with [is_int x]. *)
Definition int_min : Z := Z.opp (Z.pow 2 31).
Definition int_max : Z := Z.sub (Z.pow 2 31) 1.

Definition Z_of_int (x : int) : Z :=
  match x with
  | Posz n => Z.of_nat n
  | Negz n => Z.opp (Z.of_nat n.+1)
  end.

Definition is_int (x : int) : bool :=
  (int_min <=? Z_of_int x)%sz && (Z_of_int x <=? int_max)%sz.

(** Conversion of an [int] to [size_t], as done when an [int] index is
    passed to [std::vector::at]. *)
Definition size_t_of_int (i : int) : Z := size_t_wrap (Z_of_int i).

(** ** Exceptions *)

Inductive exception : Type :=
  | std_out_of_range
  | std_length_error
  | std_bad_alloc.

Inductive result (T : Type) : Type :=
  | Returns (v : T)
  | Throws (e : exception).
Arguments Throws {T} e.

(** The ways in which a call of a member function that changes its object
    ends: it returns, or it is left by an exception, in both cases with the
    object in the given state; or its behaviour is undefined. *)
Inductive completion (T : Type) : Type :=
  | Returned (v : T)
  | Raised (e : exception) (v : T)
  | Undefined.
Arguments Undefined {T}.

(** ** [std::vector] *)

(** What the platform grants the vectors of one element type: the value of
    [max_size()], and whether the storage that a vector needs to grow to a
    given length can be obtained. *)
Record Allocator : Type := mkAllocator {
  max_size : Z;
  allocate : Z -> bool
}.

(** The allocators of [std::vector<G1>] and [std::vector<G2>]: the two
    element types differ in size, and so do the limits. *)
Record Platform : Type := mkPlatform {
  G1_vectors : Allocator;
  G2_vectors : Allocator
}.

(** [v.resize(n)].  A vector that has [n] elements or more is cut to its
    first [n] elements.  A shorter one needs new storage: [resize] throws
    [std::length_error] when [n] exceeds [max_size()] and [std::bad_alloc]
    when the allocation fails, in both cases leaving the vector as it was,
    and otherwise pads the vector with default-constructed elements.  A
    vector has no spare capacity here: the program resizes each of its
    vectors to one length only. *)
Definition vector_resize (T : Type) (A : Allocator) (dflt : T) (n : Z)
    (v : seq T) : result (seq T) :=
  if (n <=? Z.of_nat (size v))%sz then Returns (take (Z.to_nat n) v)
  else if (max_size A <? n)%sz then Throws std_length_error
  else if ~~ allocate A n then Throws std_bad_alloc
  else Returns (v ++ nseq (Z.to_nat n - size v) dflt).

(** [v.at(n)]: bounds-checked access. *)
Definition vector_at (T : Type) (dflt : T) (v : seq T) (n : Z) : result T :=
  if (n <? Z.of_nat (size v))%sz then Returns (nth dflt v (Z.to_nat n))
  else Throws std_out_of_range.

(** ** [std::set<int>]

    A set is its ascending, duplicate-free sequence of elements, which is
    also the order in which the program iterates over it. *)

Definition set_int : Type := seq int.

Fixpoint set_insert (x : int) (s : set_int) : set_int :=
  match s with
  | [::] => [:: x]
  | y :: s' =>
      if x < y then x :: s
      else if x == y then s
      else y :: set_insert x s'
  end.

Definition set_erase (x : int) (s : set_int) : set_int := rem x s.

(** [s.find(x) != s.end()] *)
Definition set_find (x : int) (s : set_int) : bool := x \in s.

(** [std::inserter(result, result.begin())] applied to an output range:
    every element written is inserted into the initially empty [result]. *)
Definition set_of_range (out : seq int) : set_int :=
  foldl (fun result x => set_insert x result) [::] out.

(** [std::set_intersection] on two ascending ranges: the two ranges are
    walked together and the common elements are written. *)
Fixpoint std_set_intersection (s1 : seq int) : seq int -> seq int :=
  match s1 with
  | [::] => fun _ => [::]
  | x :: s1' =>
      fix inner (s2 : seq int) : seq int :=
        match s2 with
        | [::] => [::]
        | y :: s2' =>
            if x < y then std_set_intersection s1' s2
            else if y < x then inner s2'
            else x :: std_set_intersection s1' s2'
        end
  end.

(** [std::set_difference] on two ascending ranges: the elements of the first
    range that the walk does not meet in the second are written, and the
    rest of the first range is copied when the second is exhausted. *)
Fixpoint std_set_difference (s1 : seq int) : seq int -> seq int :=
  match s1 with
  | [::] => fun _ => [::]
  | x :: s1' =>
      fix inner (s2 : seq int) : seq int :=
        match s2 with
        | [::] => s1
        | y :: s2' =>
            if x < y then x :: std_set_difference s1' s2
            else if y < x then inner s2'
            else std_set_difference s1' s2'
        end
  end.

(** ** The external libraries

    [Backend] collects what the program uses of the pairing library and of
    the polynomial library.  [G1] and [G2] are written additively, as the
    library does ([G1::mul] is the scalar multiplication [a *: P], [clear]
    sets a point to [0]); [GT] is written multiplicatively ([GT_mul],
    [GT_pow] with an exponent in [Fr]).  A default-constructed group
    element holds an unspecified value until it is assigned. *)

Record Backend : Type := mkBackend {
  Fr : fieldType;
  G1 : lmodType Fr;
  G2 : lmodType Fr;
  GT : eqType;
  GT_mul : GT -> GT -> GT;
  GT_pow : GT -> Fr -> GT;
  pairing : G1 -> G2 -> GT;
  hashAndMapToG1 : string -> nat -> G1;
  hashAndMapToG2 : string -> nat -> G2;
  G1_indeterminate : G1;
  G2_indeterminate : G2;
  fmpz_mod_poly_xgcd :
    {poly Fr} -> {poly Fr} -> {poly Fr} * {poly Fr} * {poly Fr}
}.

(** The pairing is bilinear and [GT_pow] is an action of [Fr] on [GT]. *)
Record PairingLaws (B : Backend) : Prop := mkPairingLaws {
  pairing_mul_l : forall (a : Fr B) (P : G1 B) (Q : G2 B),
    pairing (a *: P) Q = GT_pow (pairing P Q) a;
  pairing_mul_r : forall (a : Fr B) (P : G1 B) (Q : G2 B),
    pairing P (a *: Q) = GT_pow (pairing P Q) a;
  GT_pow_pow : forall (x : GT B) (a b : Fr B),
    GT_pow (GT_pow x a) b = GT_pow x (a * b);
  GT_pow_add : forall (x : GT B) (a b : Fr B),
    GT_mul (GT_pow x a) (GT_pow x b) = GT_pow x (a + b);
  GT_pow_1 : forall x : GT B, GT_pow x 1 = x
}.

(** Contract of [fmpz_mod_poly_xgcd(g, u, v, p, q)]: [g] is the gcd of [p]
    and [q], monic unless it is zero, and [u * p + v * q = g]. *)
Definition XgcdContract (B : Backend) : Prop :=
  forall p q : {poly (Fr B)},
    let: (g, u, v) := fmpz_mod_poly_xgcd p q in
    [/\ u * p + v * q = g, g %| p, g %| q & (g == 0) || (g \is monic)].

(** The scalar field is larger than the range of [int]: distinct [int]s
    are distinct scalars. *)
Definition IntEmbeds (B : Backend) : Prop :=
  forall x y : int, is_int x -> is_int y -> (x%:~R : Fr B) = y%:~R -> x = y.

(** ** The program *)

Section Program.

Variable B : Backend.

(** *** Data model *)

Record AccumulatorDigest : Type := mkAccumulatorDigest { value : G1 B }.

(** The constructor clears the point. *)
Definition AccumulatorDigest_new : AccumulatorDigest := mkAccumulatorDigest 0.

Definition initialize (d : AccumulatorDigest) (generator : G1 B) :
    AccumulatorDigest :=
  mkAccumulatorDigest generator.

Definition is_identity (d : AccumulatorDigest) : bool := value d == 0.

Record AccumulatorDigestG2 : Type :=
  mkAccumulatorDigestG2 { valueG2 : G2 B }.

Definition AccumulatorDigestG2_new : AccumulatorDigestG2 :=
  mkAccumulatorDigestG2 0.

Definition initializeG2 (d : AccumulatorDigestG2) (generator : G2 B) :
    AccumulatorDigestG2 :=
  mkAccumulatorDigestG2 generator.

Definition is_identityG2 (d : AccumulatorDigestG2) : bool := valueG2 d == 0.

Record IntersectionProof : Type := mkIntersectionProof {
  intersection_digest_g1 : AccumulatorDigest;
  witness_QA_g2 : G2 B;
  witness_QB_g2 : G2 B;
  witness_a_g1 : G1 B;
  witness_b_g1 : G1 B;
  iproof_is_valid : bool
}.

Definition IntersectionProof_new : IntersectionProof :=
  mkIntersectionProof AccumulatorDigest_new
    (G2_indeterminate B) (G2_indeterminate B)
    (G1_indeterminate B) (G1_indeterminate B) false.

Record MembershipProof : Type := mkMembershipProof {
  witness_g2 : G2 B;
  is_member : bool
}.

Definition MembershipProof_new : MembershipProof :=
  mkMembershipProof (G2_indeterminate B) false.

Inductive UpdateOperation : Type := ADD | DELETE.

Record UpdateProof : Type := mkUpdateProof {
  op_type : UpdateOperation;
  old_digest : AccumulatorDigest;
  new_digest : AccumulatorDigest;
  element : int;
  membership_proof : MembershipProof;
  uproof_is_valid : bool
}.

Record ExpressiveTrustedSetup : Type := mkExpressiveTrustedSetup {
  secret_s : Fr B;
  secret_r : Fr B;
  max_degree : Z;
  g1_generator : G1 B;
  g2_generator : G2 B;
  g1_s_powers : seq (G1 B);
  g2_s_powers : seq (G2 B)
}.

Inductive GroupType : Type := G1_TYPE | G2_TYPE.

Record CharacteristicPolynomial : Type := mkCharacteristicPolynomial {
  cp_elements : set_int
}.

(** [trusted_setup] is a reference to a setup that no method of the
    accumulator changes. *)
Record ExpressiveAccumulator : Type := mkExpressiveAccumulator {
  trusted_setup : ExpressiveTrustedSetup;
  elements : set_int;
  polynomial : CharacteristicPolynomial;
  group_type : GroupType;
  digest_g1 : AccumulatorDigest;
  digest_g2 : AccumulatorDigestG2
}.

(** *** [PolynomialUtils] *)

(** The two libraries exchange scalars as decimal strings of the same
    residue. *)
Definition frToFmpz (fr : Fr B) : Fr B := fr.
Definition fmpzToFr (f : Fr B) : Fr B := f.

Definition fromRoots (roots : set_int) : {poly (Fr B)} :=
  foldl (fun poly root => poly * ('X - (root%:~R)%:P)) 1 roots.

Definition PolynomialUtils_evaluate (poly : {poly (Fr B)}) (s : Fr B) :
    Fr B :=
  fmpzToFr poly.[frToFmpz s].

(** *** [ExpressiveTrustedSetup] *)

(** The constructor stores the secrets and the bound; the generators are
    default-constructed and the power vectors are empty. *)
Definition ExpressiveTrustedSetup_new (s r : Fr B) (max_deg : Z) :
    ExpressiveTrustedSetup :=
  mkExpressiveTrustedSetup s r max_deg
    (G1_indeterminate B) (G2_indeterminate B) [::] [::].

Definition getSecretS (ts : ExpressiveTrustedSetup) : Fr B := secret_s ts.
Definition getSecretR (ts : ExpressiveTrustedSetup) : Fr B := secret_r ts.
Definition getG1Generator (ts : ExpressiveTrustedSetup) : G1 B :=
  g1_generator ts.
Definition getG2Generator (ts : ExpressiveTrustedSetup) : G2 B :=
  g2_generator ts.

(** The loop [for (size_t i = 0; i <= max_degree + 1; ++i)] of
    [generatePowers], started at [i].  Writing past the end of a vector with
    [operator[]] is undefined behaviour: the result is [None].  Every
    iteration writes one more slot, so a fuel of one more than the length of
    the vectors is never used up (lemma [generatePowers_fuel]). *)
Fixpoint generatePowers_loop (fuel : nat) (i : Z)
    (ts : ExpressiveTrustedSetup) : option ExpressiveTrustedSetup :=
  if (i <=? size_t_wrap (max_degree ts + 1))%sz then
    match fuel with
    | 0%N => None
    | fuel'.+1 =>
        if (i <? Z.of_nat (size (g1_s_powers ts)))%sz
           && (i <? Z.of_nat (size (g2_s_powers ts)))%sz then
          let s_power := secret_s ts ^+ Z.to_nat i in
          generatePowers_loop fuel' (size_t_wrap (i + 1))
            (mkExpressiveTrustedSetup
               (secret_s ts) (secret_r ts) (max_degree ts)
               (g1_generator ts) (g2_generator ts)
               (set_nth (G1_indeterminate B) (g1_s_powers ts) (Z.to_nat i)
                  (s_power *: g1_generator ts))
               (set_nth (G2_indeterminate B) (g2_s_powers ts) (Z.to_nat i)
                  (s_power *: g2_generator ts)))
        else None
    end
  else Some ts.

(** [generatePowers] sets the two generators, resizes the two vectors and
    runs the loop.  An exception of a [resize] leaves the function, with the
    setup as written so far. *)
Definition generatePowers (pf : Platform) (ts : ExpressiveTrustedSetup) :
    completion ExpressiveTrustedSetup :=
  let g1 := hashAndMapToG1 B "expressive_generator_g1" 12 in
  let g2 := hashAndMapToG2 B "expressive_generator_g2" 12 in
  let n := size_t_wrap (max_degree ts + 2) in
  let written powers1 powers2 :=
    mkExpressiveTrustedSetup
      (secret_s ts) (secret_r ts) (max_degree ts) g1 g2 powers1 powers2 in
  match
    vector_resize (G1_vectors pf) (G1_indeterminate B) n (g1_s_powers ts)
  with
  | Throws e => Raised e (written (g1_s_powers ts) (g2_s_powers ts))
  | Returns powers1 =>
      match
        vector_resize (G2_vectors pf) (G2_indeterminate B) n (g2_s_powers ts)
      with
      | Throws e => Raised e (written powers1 (g2_s_powers ts))
      | Returns powers2 =>
          match
            generatePowers_loop (Z.to_nat n).+1 0%sz (written powers1 powers2)
          with
          | Some ts' => Returned ts'
          | None => Undefined
          end
      end
  end.

Definition getG2_s_pow (ts : ExpressiveTrustedSetup) (i : int) :
    result (G2 B) :=
  vector_at (G2_indeterminate B) (g2_s_powers ts) (size_t_of_int i).

(** *** [CharacteristicPolynomial] *)

Definition CP_addElement (p : CharacteristicPolynomial) (x : int) :
    CharacteristicPolynomial :=
  mkCharacteristicPolynomial (set_insert x (cp_elements p)).

Definition CP_removeElement (p : CharacteristicPolynomial) (x : int) :
    CharacteristicPolynomial :=
  mkCharacteristicPolynomial (set_erase x (cp_elements p)).

Definition CP_evaluate (p : CharacteristicPolynomial) (a : Fr B) : Fr B :=
  if nilp (cp_elements p) then 1
  else foldl (fun res r => res * (a - r%:~R)) 1 (cp_elements p).

Definition CP_intersection (set1 set2 : set_int) : set_int :=
  set_of_range (std_set_intersection set1 set2).

(** *** [ExpressiveAccumulator] *)

Definition ExpressiveAccumulator_new (setup : ExpressiveTrustedSetup)
    (type : GroupType) : ExpressiveAccumulator :=
  let polynomial := mkCharacteristicPolynomial [::] in
  match type with
  | G1_TYPE =>
      mkExpressiveAccumulator setup [::] polynomial type
        (initialize AccumulatorDigest_new (getG1Generator setup))
        AccumulatorDigestG2_new
  | G2_TYPE =>
      mkExpressiveAccumulator setup [::] polynomial type
        AccumulatorDigest_new
        (initializeG2 AccumulatorDigestG2_new (getG2Generator setup))
  end.

Definition getElements (acc : ExpressiveAccumulator) : set_int := elements acc.
Definition getDigest (acc : ExpressiveAccumulator) : AccumulatorDigest :=
  digest_g1 acc.
Definition getDigestG2 (acc : ExpressiveAccumulator) : AccumulatorDigestG2 :=
  digest_g2 acc.
Definition getTrustedSetup (acc : ExpressiveAccumulator) :
    ExpressiveTrustedSetup :=
  trusted_setup acc.
Definition getGroupType (acc : ExpressiveAccumulator) : GroupType :=
  group_type acc.

Definition updateAccumulatorValue (acc : ExpressiveAccumulator) :
    ExpressiveAccumulator :=
  let poly_eval :=
    CP_evaluate (polynomial acc) (getSecretS (trusted_setup acc)) in
  match group_type acc with
  | G1_TYPE =>
      mkExpressiveAccumulator (trusted_setup acc) (elements acc)
        (polynomial acc) (group_type acc)
        (mkAccumulatorDigest
           (poly_eval *: getG1Generator (trusted_setup acc)))
        (digest_g2 acc)
  | G2_TYPE =>
      mkExpressiveAccumulator (trusted_setup acc) (elements acc)
        (polynomial acc) (group_type acc)
        (digest_g1 acc)
        (mkAccumulatorDigestG2
           (poly_eval *: getG2Generator (trusted_setup acc)))
  end.

(** The methods that change the accumulator return the new accumulator
    next to their result. *)
Definition addElement (acc : ExpressiveAccumulator) (x : int) :
    ExpressiveAccumulator * UpdateProof :=
  let old := getDigest acc in
  let acc' :=
    if ~~ set_find x (elements acc) then
      updateAccumulatorValue
        (mkExpressiveAccumulator (trusted_setup acc)
           (set_insert x (elements acc))
           (CP_addElement (polynomial acc) x)
           (group_type acc) (digest_g1 acc) (digest_g2 acc))
    else acc in
  (acc', mkUpdateProof ADD old (getDigest acc') x MembershipProof_new true).

Definition generateMembershipProof (acc : ExpressiveAccumulator) (x : int) :
    MembershipProof :=
  if ~~ set_find x (elements acc) then MembershipProof_new
  else
    let witness_elements := set_erase x (elements acc) in
    let witness_poly := mkCharacteristicPolynomial witness_elements in
    let witness_s :=
      CP_evaluate witness_poly (getSecretS (trusted_setup acc)) in
    mkMembershipProof
      (witness_s *: getG2Generator (trusted_setup acc)) true.

Definition deleteElement (acc : ExpressiveAccumulator) (x : int) :
    ExpressiveAccumulator * UpdateProof :=
  let old := getDigest acc in
  if ~~ set_find x (elements acc) then
    (acc, mkUpdateProof DELETE old (getDigest acc) x MembershipProof_new false)
  else
    let mp := generateMembershipProof acc x in
    if ~~ is_member mp then
      (acc, mkUpdateProof DELETE old (getDigest acc) x mp false)
    else
      let acc' :=
        updateAccumulatorValue
          (mkExpressiveAccumulator (trusted_setup acc)
             (set_erase x (elements acc))
             (CP_removeElement (polynomial acc) x)
             (group_type acc) (digest_g1 acc) (digest_g2 acc)) in
      (acc', mkUpdateProof DELETE old (getDigest acc') x mp true).

Definition verifyMembershipProof (acc_digest : AccumulatorDigest) (x : int)
    (proof : MembershipProof) (setup : ExpressiveTrustedSetup) : bool :=
  if ~~ is_member proof then false
  else
    let lhs := pairing (value acc_digest) (getG2Generator setup) in
    let s := getSecretS setup in
    let sx_g1 := (s - x%:~R) *: getG1Generator setup in
    let rhs := pairing sx_g1 (witness_g2 proof) in
    lhs == rhs.

Definition generateIntersectionProof (acc1 acc2 : ExpressiveAccumulator)
    (setup : ExpressiveTrustedSetup) : IntersectionProof :=
  let s := getSecretS setup in
  let intersection_set :=
    CP_intersection (getElements acc1) (getElements acc2) in
  let diff_A_set :=
    set_of_range (std_set_difference (getElements acc1) intersection_set) in
  let diff_B_set :=
    set_of_range (std_set_difference (getElements acc2) intersection_set) in
  let poly_I := fromRoots intersection_set in
  let poly_QA := fromRoots diff_A_set in
  let poly_QB := fromRoots diff_B_set in
  let I_s := PolynomialUtils_evaluate poly_I s in
  let QA_s := PolynomialUtils_evaluate poly_QA s in
  let QB_s := PolynomialUtils_evaluate poly_QB s in
  let D_I := mkAccumulatorDigest (I_s *: getG1Generator setup) in
  let W_QA := QA_s *: getG2Generator setup in
  let W_QB := QB_s *: getG2Generator setup in
  let: (gcd, a, b) := fmpz_mod_poly_xgcd poly_QA poly_QB in
  if gcd != 1 then
    mkIntersectionProof D_I W_QA W_QB
      (G1_indeterminate B) (G1_indeterminate B) false
  else
    let a_s := PolynomialUtils_evaluate a s in
    let b_s := PolynomialUtils_evaluate b s in
    mkIntersectionProof D_I W_QA W_QB
      (a_s *: getG1Generator setup) (b_s *: getG1Generator setup) true.

Definition verifyIntersectionProof (digest_A digest_B : AccumulatorDigest)
    (proof : IntersectionProof) (setup : ExpressiveTrustedSetup) : bool :=
  if ~~ iproof_is_valid proof then false
  else
    let g1_gen := getG1Generator setup in
    let g2_gen := getG2Generator setup in
    let e1 := pairing (value digest_A) g2_gen in
    let e2 :=
      pairing (value (intersection_digest_g1 proof)) (witness_QA_g2 proof) in
    if e1 != e2 then false
    else
      let e1 := pairing (value digest_B) g2_gen in
      let e2 :=
        pairing (value (intersection_digest_g1 proof)) (witness_QB_g2 proof) in
      if e1 != e2 then false
      else
        let e3 := pairing (witness_a_g1 proof) (witness_QA_g2 proof) in
        let e4 := pairing (witness_b_g1 proof) (witness_QB_g2 proof) in
        let e5 := pairing g1_gen g2_gen in
        if GT_mul e3 e4 != e5 then false else true.

(** [setup.g2_s_powers[1]] is an unchecked read: past the end of the vector
    it yields an unspecified value. *)
Definition verifyUpdateProof (proof : UpdateProof)
    (setup : ExpressiveTrustedSetup) : bool :=
  if ~~ uproof_is_valid proof then false
  else
    let element_fr : Fr B := (element proof)%:~R in
    let g2_gen := getG2Generator setup in
    let g2_s := nth (G2_indeterminate B) (g2_s_powers setup) 1 in
    match op_type proof with
    | ADD =>
        let lhs := pairing (value (new_digest proof)) g2_gen in
        let rhs1 := pairing (value (old_digest proof)) g2_s in
        let rhs2_base := pairing (value (old_digest proof)) g2_gen in
        let rhs2 := GT_pow rhs2_base (- element_fr) in
        let rhs := GT_mul rhs1 rhs2 in
        lhs == rhs
    | DELETE =>
        let has_right_to_delete :=
          verifyMembershipProof (old_digest proof) (element proof)
            (membership_proof proof) setup in
        if ~~ has_right_to_delete then false
        else
          let lhs := pairing (value (old_digest proof)) g2_gen in
          let rhs1 := pairing (value (new_digest proof)) g2_s in
          let rhs2_base := pairing (value (new_digest proof)) g2_gen in
          let rhs2 := GT_pow rhs2_base (- element_fr) in
          let rhs := GT_mul rhs1 rhs2 in
          lhs == rhs
    end.

(** *** Reachable accumulators *)

(** The accumulators obtained from the constructor by [addElement] and
    [deleteElement]. *)
Inductive reachable (setup : ExpressiveTrustedSetup) (type : GroupType) :
    ExpressiveAccumulator -> Prop :=
  | reachable_new : reachable setup type (ExpressiveAccumulator_new setup type)
  | reachable_add acc x :
      reachable setup type acc -> is_int x ->
      reachable setup type (addElement acc x).1
  | reachable_delete acc x :
      reachable setup type acc -> is_int x ->
      reachable setup type (deleteElement acc x).1.

(** The accumulators obtained from the constructor by [addElement] only. *)
Inductive built_by_add (setup : ExpressiveTrustedSetup) (type : GroupType) :
    ExpressiveAccumulator -> Prop :=
  | built_new : built_by_add setup type (ExpressiveAccumulator_new setup type)
  | built_add acc x :
      built_by_add setup type acc -> is_int x ->
      built_by_add setup type (addElement acc x).1.

(** [addElement] for each element of a list, in order. *)
Definition add_all (acc : ExpressiveAccumulator) (xs : seq int) :
    ExpressiveAccumulator :=
  foldl (fun acc x => (addElement acc x).1) acc xs.

(** *** Notions of the specification *)

(** [P_S(a)]: the characteristic polynomial of the set [S], evaluated at
    [a]; the empty product is [1]. *)
Definition char_poly_at (S : seq int) (a : Fr B) : Fr B :=
  \prod_(x <- S) (a - x%:~R).

(** The digest of [acc] in its chosen group is [g^e], for the generator [g]
    of that group. *)
Definition digest_is (acc : ExpressiveAccumulator) (e : Fr B) : Prop :=
  match group_type acc with
  | G1_TYPE =>
      value (digest_g1 acc) = e *: getG1Generator (trusted_setup acc)
  | G2_TYPE =>
      valueG2 (digest_g2 acc) = e *: getG2Generator (trusted_setup acc)
  end.

(** The invariant of the trusted setup: the two vectors hold the powers
    [g^(s^i)] for [i = 0 .. d+1]. *)
Definition powers_published (ts : ExpressiveTrustedSetup) : Prop :=
  let n := Z.to_nat (max_degree ts + 2) in
  g1_s_powers ts = [seq secret_s ts ^+ i *: g1_generator ts | i <- iota 0 n]
  /\ g2_s_powers ts
     = [seq secret_s ts ^+ i *: g2_generator ts | i <- iota 0 n].

(** The pairing of the two generators has full order: raising it to two
    scalars gives the same element of [GT] only for equal scalars.  This
    holds for generators of the prime-order groups of a pairing-friendly
    curve. *)
Definition NonDegenerate (setup : ExpressiveTrustedSetup) : Prop :=
  forall a b : Fr B,
    GT_pow (pairing (getG1Generator setup) (getG2Generator setup)) a
    = GT_pow (pairing (getG1Generator setup) (getG2Generator setup)) b ->
    a = b.

(** The invariant of the accumulators built over [setup] in the group
    [type]. *)
Record acc_inv (setup : ExpressiveTrustedSetup) (type : GroupType)
    (acc : ExpressiveAccumulator) : Prop := mkAccInv {
  inv_setup : trusted_setup acc = setup;
  inv_type : group_type acc = type;
  inv_sorted : sorted <%R (elements acc);
  inv_range : all is_int (elements acc);
  inv_poly : cp_elements (polynomial acc) = elements acc;
  inv_digest :
    match type with
    | G1_TYPE =>
        digest_g1 acc
        = mkAccumulatorDigest
            (char_poly_at (elements acc) (secret_s setup)
               *: g1_generator setup)
        /\ digest_g2 acc = AccumulatorDigestG2_new
    | G2_TYPE =>
        digest_g1 acc = AccumulatorDigest_new
        /\ digest_g2 acc
           = mkAccumulatorDigestG2
               (char_poly_at (elements acc) (secret_s setup)
                  *: g2_generator setup)
    end
}.

End Program.

Arguments IntersectionProof_new {B}.
Arguments MembershipProof_new {B}.
Arguments AccumulatorDigest_new {B}.
Arguments AccumulatorDigestG2_new {B}.

(** ** A concrete backend

    A small model of the two libraries, used to run the program on concrete
    inputs: scalars are rational numbers, every group is the additive group
    of the scalars with generator [1], the pairing is the product, and the
    extended gcd is MathComp's, normalised to a monic gcd. *)

Definition monic_xgcd (F : fieldType) (p q : {poly F}) :
    {poly F} * {poly F} * {poly F} :=
  let e := egcdp p q in
  let g := e.1 * p + e.2 * q in
  let c := (lead_coef g)^-1 in
  (c *: g, c *: e.1, c *: e.2).

Definition rat_backend : Backend :=
  @mkBackend rat rat^o rat^o rat
    (fun x y : rat => x + y)
    (fun (x : rat) (a : rat) => a * x)
    (fun P Q : rat => P * Q)
    (fun _ _ => 1) (fun _ _ => 1) 0 0
    (@monic_xgcd rat).

(** Concrete inputs: a 64-bit platform whose [max_size()] is [PTRDIFF_MAX]
    divided by the size of an element ([144] bytes for [G1], [288] for
    [G2]) and which grants storage for up to [2^20] elements; a setup with
    [s = 4], [r = 7] and [d = 100] after [generatePowers], the sets
    [{1,3,5,7,9}] and [{2,3,5,8,9}] in [G1], a set in [G2], and a setup
    whose bound is the largest [size_t]. *)

Definition example_platform : Platform :=
  mkPlatform
    (mkAllocator (Z.div (Z.pow 2 63 - 1) 144)
       (fun n => (n <=? Z.pow 2 20)%sz))
    (mkAllocator (Z.div (Z.pow 2 63 - 1) 288)
       (fun n => (n <=? Z.pow 2 20)%sz)).

Definition example_setup0 : ExpressiveTrustedSetup rat_backend :=
  @ExpressiveTrustedSetup_new rat_backend 4 7 100%sz.

Definition example_setup : ExpressiveTrustedSetup rat_backend :=
  @mkExpressiveTrustedSetup rat_backend 4 7 100%sz 1 1
    (mkseq (fun i => (4 : rat) ^+ i *: (1 : rat^o)) 102)
    (mkseq (fun i => (4 : rat) ^+ i *: (1 : rat^o)) 102).

Definition example_A : ExpressiveAccumulator rat_backend :=
  add_all (ExpressiveAccumulator_new example_setup G1_TYPE)
    [:: 1; 3; 5; 7; 9].

Definition example_B : ExpressiveAccumulator rat_backend :=
  add_all (ExpressiveAccumulator_new example_setup G1_TYPE)
    [:: 2; 3; 5; 8; 9].

Definition example_G2 : ExpressiveAccumulator rat_backend :=
  add_all (ExpressiveAccumulator_new example_setup G2_TYPE) [:: 10; 11].

Definition overflow_setup : ExpressiveTrustedSetup rat_backend :=
  @ExpressiveTrustedSetup_new rat_backend 4 7 (size_t_modulus - 1)%sz.

(** Further inputs: the common elements [{3,5,9}] of the two sets, and the
    first set after [10] is added and [7] is deleted. *)

Definition example_I : ExpressiveAccumulator rat_backend :=
  add_all (ExpressiveAccumulator_new example_setup G1_TYPE) [:: 3; 5; 9].

Definition example_A_updated : ExpressiveAccumulator rat_backend :=
  (deleteElement (addElement example_A 10).1 7).1.

(** * Properties *)

(** Linear arithmetic over the machine-integer bounds. *)
Ltac size_lia := unfold size_t_modulus, int_min, int_max in *; lia.

(** ** [std::set<int>] *)

Section SetLemmas.

Implicit Types (x y z : int) (s : seq int).

Lemma mem_set_insert x y s : (y \in set_insert x s) = (y == x) || (y \in s).
Proof.
elim: s => [|z s IH] /=; first by rewrite !inE orbF.
case: ifP => _; first by rewrite !inE.
case: eqP => [->|_]; first by rewrite !inE; case: (y == z).
by rewrite !inE IH orbCA.
Qed.

Lemma path_set_insert z x s :
  z < x -> path <%R z s -> path <%R z (set_insert x s).
Proof.
elim: s z => [|y s IH] z zx /=; first by rewrite zx.
case/andP=> zy ps; case: (ltgtP x y) => xy /=.
- by rewrite zx xy ps.
- by rewrite zy IH.
- by rewrite zy ps.
Qed.

Lemma sorted_set_insert x s : sorted <%R s -> sorted <%R (set_insert x s).
Proof.
case: s => [|y s] //= ps; case: (ltgtP x y) => xy /=.
- by rewrite xy ps.
- exact: path_set_insert.
- by [].
Qed.

Lemma sorted_set_erase x s : sorted <%R s -> sorted <%R (set_erase x s).
Proof. by apply: subseq_sorted; [exact: lt_trans | exact: rem_subseq]. Qed.

(** Inserting an element above all the others appends it. *)
Lemma set_insert_rcons x s :
  all (fun y => y < x) s -> set_insert x s = rcons s x.
Proof.
elim: s => [|y s IH] //= /andP [yx ys].
by case: (ltgtP x y) yx => // _ _; rewrite IH.
Qed.

Lemma sorted_cat_cons_all s1 x s2 :
  sorted <%R (s1 ++ x :: s2) -> all (fun y => y < x) s1.
Proof.
elim: s1 => [|y s1 IH] //= ps.
rewrite IH ?(path_sorted ps) // andbT.
have /allP := order_path_min (@lt_trans _ _) ps.
by apply; rewrite mem_cat inE eqxx orbT.
Qed.

Lemma foldl_set_insert_sorted acc s :
  sorted <%R (acc ++ s) ->
  foldl (fun result x => set_insert x result) acc s = acc ++ s.
Proof.
elim: s acc => [|x s IH] acc /=; first by rewrite cats0.
move=> ss; rewrite (set_insert_rcons (sorted_cat_cons_all ss)).
by rewrite IH cat_rcons.
Qed.

(** Inserting an ascending range into the empty set gives that range. *)
Lemma set_of_range_sorted s : sorted <%R s -> set_of_range s = s.
Proof. by move=> ss; rewrite /set_of_range foldl_set_insert_sorted. Qed.

Lemma path_lt_notin x s : path <%R x s -> x \notin s.
Proof.
move=> /(order_path_min (@lt_trans _ _)) /allP xs.
by apply/negP => /xs; rewrite ltxx.
Qed.

(** Below the head of an ascending sequence nothing is in it. *)
Lemma lt_path_notin x y t : x < y -> path <%R y t -> x \notin y :: t.
Proof.
move=> xy pt; rewrite inE negb_or (lt_eqF xy) /=.
apply/negP => xt; have /allP /(_ _ xt) := order_path_min (@lt_trans _ _) pt.
by move=> /(lt_trans xy); rewrite ltxx.
Qed.

Lemma mem_cons_below x y s t z :
  y < x -> path <%R x s -> z \in x :: s -> (z \in y :: t) = (z \in t).
Proof.
move=> yx ps zs; rewrite inE; case: eqP => // zy.
by move: (lt_path_notin yx ps); rewrite -zy zs.
Qed.

Lemma std_set_intersection_cons x s y t :
  std_set_intersection (x :: s) (y :: t) =
  if x < y then std_set_intersection s (y :: t)
  else if y < x then std_set_intersection (x :: s) t
  else x :: std_set_intersection s t.
Proof. by []. Qed.

Lemma std_set_difference_cons x s y t :
  std_set_difference (x :: s) (y :: t) =
  if x < y then x :: std_set_difference s (y :: t)
  else if y < x then std_set_difference (x :: s) t
  else std_set_difference s t.
Proof. by []. Qed.

(** On ascending ranges the walk keeps the elements of the first range that
    are in the second. *)
Lemma std_set_intersectionE s t :
  sorted <%R s -> sorted <%R t ->
  std_set_intersection s t = [seq x <- s | x \in t].
Proof.
elim: s t => [|x s IHs]; first by case.
elim=> [|y t IHt] ss st.
  by rewrite /= -[RHS]/(filter pred0 (x :: s)) filter_pred0.
have ss' := path_sorted ss; have st' := path_sorted st.
rewrite std_set_intersection_cons; case: (ltgtP x y) => xy.
- by rewrite IHs //= (negbTE (lt_path_notin xy st)).
- rewrite IHt //; apply: eq_in_filter => z zs.
  by rewrite (mem_cons_below _ xy ss zs).
- rewrite IHs //= xy inE eqxx /=; congr (_ :: _).
  apply: eq_in_filter => z zs; rewrite inE; case: eqP => // zy.
  by move: (path_lt_notin ss); rewrite xy -zy zs.
Qed.

(** On ascending ranges the walk keeps the elements of the first range that
    are not in the second. *)
Lemma std_set_differenceE s t :
  sorted <%R s -> sorted <%R t ->
  std_set_difference s t = [seq x <- s | x \notin t].
Proof.
elim: s t => [|x s IHs]; first by case.
elim=> [|y t IHt] ss st.
  by rewrite [LHS]/= -[RHS]/(filter predT (x :: s)) filter_predT.
have ss' := path_sorted ss; have st' := path_sorted st.
rewrite std_set_difference_cons; case: (ltgtP x y) => xy.
- by rewrite IHs //= (lt_path_notin xy st).
- rewrite IHt //; apply: eq_in_filter => z zs.
  by rewrite (mem_cons_below _ xy ss zs).
- rewrite IHs //= xy inE eqxx /=.
  apply: eq_in_filter => z zs; rewrite inE; case: eqP => // zy.
  by move: (path_lt_notin ss); rewrite xy -zy zs.
Qed.

Lemma sorted_filter_lt (p : pred int) s :
  sorted <%R s -> sorted <%R [seq x <- s | p x].
Proof. exact/sorted_filter/lt_trans. Qed.

(** Removing the intersection removes the elements of the other set. *)
Lemma difference_intersection (s t i : seq int) :
  sorted <%R s -> sorted <%R i -> i =i [predI s & t] ->
  std_set_difference s i = [seq x <- s | x \notin t].
Proof.
move=> ss si Hi; rewrite std_set_differenceE //.
by apply: eq_in_filter => x xs; rewrite Hi !inE xs.
Qed.

Example set_insert_middle : set_insert 3 [:: 1; 5] = [:: 1; 3; 5].
Proof. by []. Qed.

Example set_insert_present : set_insert 5 [:: 1; 5] = [:: 1; 5].
Proof. by []. Qed.

Example set_erase_present : set_erase 5 [:: 1; 5; 9] = [:: 1; 9].
Proof. by []. Qed.

Example std_set_intersection_example :
  set_of_range (std_set_intersection [:: 1; 3; 5; 7; 9] [:: 2; 3; 5; 8; 9])
  = [:: 3; 5; 9].
Proof. by []. Qed.

Example std_set_difference_example :
  set_of_range (std_set_difference [:: 1; 3; 5; 7; 9] [:: 3; 5; 9])
  = [:: 1; 7].
Proof. by []. Qed.

End SetLemmas.

(** ** [std::vector] and [size_t] *)

Lemma set_nth_cat_cons (T : Type) (x0 y0 y : T) (s t : seq T) :
  set_nth x0 (s ++ y0 :: t) (size s) y = rcons s y ++ t.
Proof. by elim: s => [|z s IH] //=; rewrite IH. Qed.

Lemma set_nth_mkseq_cat (T : Type) (f : nat -> T) (x0 y0 : T) (k : nat)
    (t : seq T) :
  set_nth x0 (mkseq f k ++ y0 :: t) k (f k) = mkseq f k.+1 ++ t.
Proof. by rewrite -{2}(size_mkseq f k) set_nth_cat_cons -mkseqS. Qed.

Lemma size_vector_resize (T : Type) (A : Allocator) (dflt : T) (n : Z)
    (v v' : seq T) :
  (0 <= n)%sz -> vector_resize A dflt n v = Returns v' ->
  size v' = Z.to_nat n.
Proof.
move=> n0; rewrite /vector_resize; case: Z.leb_spec => [le_n [<-]|lt_n].
  have le : (Z.to_nat n <= size v)%N by apply/ssrnat.leP; lia.
  by rewrite size_take ltn_neqAle le andbT; case: eqP.
case: Z.ltb_spec => // _; case: ifP => // _ [<-].
by rewrite size_cat size_nseq subnKC //; apply/ssrnat.leP; lia.
Qed.

(** A vector that has the requested length is left as it is, whatever the
    platform. *)
Lemma vector_resize_same (T : Type) (A : Allocator) (dflt : T) (v : seq T) :
  vector_resize A dflt (Z.of_nat (size v)) v = Returns v.
Proof. by rewrite /vector_resize Z.leb_refl Nat2Z.id take_size. Qed.

(** An empty vector grows to a length within the limits of the platform,
    and throws otherwise. *)
Lemma vector_resize_empty (T : Type) (A : Allocator) (dflt : T) (n : Z) :
  (0 < n)%sz ->
  vector_resize A dflt n [::]
  = if (max_size A <? n)%sz then Throws std_length_error
    else if ~~ allocate A n then Throws std_bad_alloc
    else Returns (nseq (Z.to_nat n) dflt).
Proof.
by move=> n0; rewrite /vector_resize /= subn0; case: Z.leb_spec => //; lia.
Qed.

Lemma size_t_wrap_small (z : Z) :
  (0 <= z < size_t_modulus)%sz -> size_t_wrap z = z.
Proof. by move=> Hz; rewrite /size_t_wrap Z.mod_small. Qed.

(** ** Products *)

Lemma foldl_mul_prod (R : pzRingType) (T : Type) (f : T -> R) (z : R)
    (s : seq T) :
  foldl (fun res r => res * f r) z s = z * \prod_(r <- s) f r.
Proof.
elim: s z => [|x s IH] z /=; first by rewrite big_nil mulr1.
by rewrite IH big_cons mulrA.
Qed.

(** ** The accumulator *)

Section Properties.

Variable B : Backend.

Implicit Types (setup ts : ExpressiveTrustedSetup B)
  (acc : ExpressiveAccumulator B) (x : int) (a : Fr B) (S T : seq int).

(** *** Evaluation of characteristic polynomials *)

Lemma CP_evaluateE (p : CharacteristicPolynomial) a :
  CP_evaluate p a = char_poly_at (cp_elements p) a.
Proof.
rewrite /CP_evaluate /char_poly_at; case: (cp_elements p) => [|x s] /=.
  by rewrite big_nil.
by rewrite foldl_mul_prod big_cons mul1r.
Qed.

Lemma fromRootsE S : fromRoots B S = \prod_(x <- S) ('X - (x%:~R)%:P).
Proof. by rewrite /fromRoots foldl_mul_prod mul1r. Qed.

Lemma evaluate_fromRoots S a :
  PolynomialUtils_evaluate (fromRoots B S) a = char_poly_at S a.
Proof.
rewrite /PolynomialUtils_evaluate /fmpzToFr /frToFmpz fromRootsE horner_prod.
by apply: eq_bigr => x _; rewrite hornerXsubC.
Qed.

Lemma char_poly_at_rem S x a :
  x \in S -> char_poly_at S a = (a - x%:~R) * char_poly_at (rem x S) a.
Proof. by move=> xS; rewrite /char_poly_at (big_rem x). Qed.

Lemma char_poly_at_split S (p : pred int) a :
  char_poly_at S a
  = char_poly_at [seq x <- S | p x] a * char_poly_at [seq x <- S | ~~ p x] a.
Proof. by rewrite /char_poly_at (bigID p) /= !big_filter. Qed.

Lemma char_poly_at_perm S T a :
  perm_eq S T -> char_poly_at S a = char_poly_at T a.
Proof. exact: perm_big. Qed.

(** *** The invariant of reachable accumulators *)

Lemma acc_inv_new setup type :
  acc_inv setup type (ExpressiveAccumulator_new setup type).
Proof.
by case: type; split=> //=; rewrite /char_poly_at big_nil scale1r.
Qed.

Lemma acc_inv_add setup type acc x :
  is_int x -> acc_inv setup type acc ->
  acc_inv setup type (addElement acc x).1.
Proof.
move=> xi [Hs Ht Hso Hr Hp Hd]; rewrite /addElement /set_find /=.
case: ifP => [xS|_]; last by split.
rewrite /updateAccumulatorValue /= CP_evaluateE /= Ht Hs Hp.
case: type Ht Hd => Ht [Hd1 Hd2]; split=> //=; rewrite ?Hp //;
  try exact: sorted_set_insert;
  try by apply/allP => y; rewrite mem_set_insert => /orP [/eqP -> //|];
         exact: (allP Hr).
Qed.

Lemma acc_inv_delete setup type acc x :
  acc_inv setup type acc -> acc_inv setup type (deleteElement acc x).1.
Proof.
move=> [Hs Ht Hso Hr Hp Hd]; rewrite /deleteElement /generateMembershipProof.
rewrite /set_find; case: ifP => [_|xS] /=; first by split.
rewrite xS /= /updateAccumulatorValue /= CP_evaluateE /= Ht Hs Hp.
case: type Ht Hd => Ht [Hd1 Hd2]; split=> //=; rewrite ?Hp //;
  try exact: sorted_set_erase;
  try by apply/allP => y /mem_rem; exact: (allP Hr).
Qed.

Lemma reachable_inv setup type acc :
  reachable setup type acc -> acc_inv setup type acc.
Proof.
elim=> [|acc' x _ IH xi|acc' x _ IH _].
- exact: acc_inv_new.
- exact: acc_inv_add.
- exact: acc_inv_delete.
Qed.

Lemma built_by_add_reachable setup type acc :
  built_by_add setup type acc -> reachable setup type acc.
Proof.
elim=> [|acc' x _ IH xi]; first exact: reachable_new.
exact: reachable_add.
Qed.

Lemma built_by_add_all setup type acc (xs : seq int) :
  all is_int xs -> built_by_add setup type acc ->
  built_by_add setup type (add_all acc xs).
Proof.
elim: xs acc => [|x xs IH] acc //= /andP [ix ixs] bacc.
by apply: IH => //; apply: built_add.
Qed.

(** C6.  Every accumulator reachable from the constructor by [addElement]
    and [deleteElement] has, in its chosen group, the digest [g^(P_S(s))]
    for its current element set [S]; [P] of the empty set is [1], and a
    fresh accumulator has the empty set and the generator as digest. *)
Theorem digest_invariant setup type acc :
  reachable setup type acc ->
  [/\ digest_is acc
        (char_poly_at (elements acc) (getSecretS (trusted_setup acc))),
      char_poly_at [::] (getSecretS setup) = 1,
      elements (ExpressiveAccumulator_new setup type) = [::]
    & match type with
      | G1_TYPE =>
          value (digest_g1 (ExpressiveAccumulator_new setup type))
          = getG1Generator setup
      | G2_TYPE =>
          valueG2 (digest_g2 (ExpressiveAccumulator_new setup type))
          = getG2Generator setup
      end].
Proof.
move=> /reachable_inv [Hs Ht _ _ _ Hd]; split.
- by rewrite /digest_is Ht Hs; case: type Hd {Ht} => [[-> _]|[_ ->]].
- by rewrite /char_poly_at big_nil.
- by case: type {Ht Hd}.
- by case: type {Ht Hd}.
Qed.

(** C10.  The digest of the group that was not chosen is never written: the
    constructor leaves it cleared, [addElement] and [deleteElement] keep it,
    so it is the identity in every reachable accumulator. *)
Theorem other_digest_untouched setup type acc :
  reachable setup type acc ->
  match type with
  | G2_TYPE =>
      [/\ digest_g1 (ExpressiveAccumulator_new setup type)
          = AccumulatorDigest_new,
          is_identity (digest_g1 acc)
        & forall x,
            digest_g1 (addElement acc x).1 = digest_g1 acc
            /\ digest_g1 (deleteElement acc x).1 = digest_g1 acc]
  | G1_TYPE =>
      [/\ digest_g2 (ExpressiveAccumulator_new setup type)
          = AccumulatorDigestG2_new,
          is_identityG2 (digest_g2 acc)
        & forall x,
            digest_g2 (addElement acc x).1 = digest_g2 acc
            /\ digest_g2 (deleteElement acc x).1 = digest_g2 acc]
  end.
Proof.
move=> /reachable_inv [_ Ht _ _ _ Hd].
case: type Ht Hd => Ht [Hd1 Hd2]; split=> //.
- by rewrite /is_identityG2 Hd2 /=.
- move=> x; rewrite /addElement /deleteElement /generateMembershipProof.
  rewrite /set_find /updateAccumulatorValue /= Ht.
  by case: (x \in elements acc).
- by rewrite /is_identity Hd1 /=.
- move=> x; rewrite /addElement /deleteElement /generateMembershipProof.
  rewrite /set_find /updateAccumulatorValue /= Ht.
  by case: (x \in elements acc).
Qed.

(** C7.  Deleting an element that is not in the set changes nothing and
    returns a proof with [is_valid = false] whose old and new digests are
    the current digest; no setup makes [verifyUpdateProof] accept it. *)
Theorem deleteElement_absent acc x :
  x \notin elements acc ->
  let: (acc', proof) := deleteElement acc x in
  [/\ acc' = acc,
      uproof_is_valid proof = false,
      old_digest proof = getDigest acc,
      new_digest proof = getDigest acc
    & forall setup, verifyUpdateProof proof setup = false].
Proof. by rewrite /deleteElement /set_find => ->. Qed.

(** C8.  Adding an element that is already in the set changes nothing, the
    proof returned has equal old and new digests, and it still has
    [is_valid = true]. *)
Theorem addElement_present acc x :
  x \in elements acc ->
  let: (acc', proof) := addElement acc x in
  [/\ acc' = acc,
      old_digest proof = new_digest proof
    & uproof_is_valid proof = true].
Proof. by rewrite /addElement /set_find => ->. Qed.

(** *** The trusted setup *)

Lemma generatePowers_loopS (fuel : nat) (i : Z) ts :
  generatePowers_loop fuel.+1 i ts =
  if (i <=? size_t_wrap (max_degree ts + 1))%sz then
    if (i <? Z.of_nat (size (g1_s_powers ts)))%sz
       && (i <? Z.of_nat (size (g2_s_powers ts)))%sz then
      generatePowers_loop fuel (size_t_wrap (i + 1))
        (mkExpressiveTrustedSetup
           (secret_s ts) (secret_r ts) (max_degree ts)
           (g1_generator ts) (g2_generator ts)
           (set_nth (G1_indeterminate B) (g1_s_powers ts) (Z.to_nat i)
              (secret_s ts ^+ Z.to_nat i *: g1_generator ts))
           (set_nth (G2_indeterminate B) (g2_s_powers ts) (Z.to_nat i)
              (secret_s ts ^+ Z.to_nat i *: g2_generator ts)))
    else None
  else Some ts.
Proof. by []. Qed.

Lemma size_set_nth_in (T : Type) (x0 y : T) (s : seq T) (n : nat) :
  (n < size s)%N -> size (set_nth x0 s n y) = size s.
Proof. by move=> lt_n; rewrite size_set_nth; apply/maxn_idPr. Qed.

(** More fuel than the number of slots left does not change the result of
    the loop. *)
Lemma generatePowers_loop_fuel (extra fuel : nat) (i : Z) ts :
  (0 <= i)%sz ->
  (Z.of_nat (size (g1_s_powers ts)) < size_t_modulus)%sz ->
  (Z.of_nat (size (g1_s_powers ts)) - i < Z.of_nat fuel)%sz ->
  generatePowers_loop (fuel + extra) i ts = generatePowers_loop fuel i ts.
Proof.
elim: fuel i ts => [|fuel IH] i ts i0 szlt lt.
  rewrite add0n; case: extra => [|extra] //; rewrite generatePowers_loopS /=.
  by case: Z.ltb_spec => //; lia.
rewrite addSn !generatePowers_loopS; case: Z.leb_spec => // _.
case: Z.ltb_spec => //= lt1; case: Z.ltb_spec => //= lt2.
have lt_n : (Z.to_nat i < size (g1_s_powers ts))%N by apply/ssrnat.ltP; lia.
have wi : size_t_wrap (i + 1) = (i + 1)%sz.
  by apply: size_t_wrap_small; size_lia.
by rewrite wi; apply: IH; rewrite /= ?size_set_nth_in //; lia.
Qed.

(** The fuel that [generatePowers] gives its loop is never used up: on the
    vectors that the two [resize] calls return, the loop ends in the same
    way with any additional fuel. *)
Lemma generatePowers_fuel (extra : nat) pf ts (powers1 : seq (G1 B))
    (powers2 : seq (G2 B)) :
  let n := size_t_wrap (max_degree ts + 2) in
  let written :=
    mkExpressiveTrustedSetup
      (secret_s ts) (secret_r ts) (max_degree ts)
      (hashAndMapToG1 B "expressive_generator_g1" 12)
      (hashAndMapToG2 B "expressive_generator_g2" 12) powers1 powers2 in
  vector_resize (G1_vectors pf) (G1_indeterminate B) n (g1_s_powers ts)
  = Returns powers1 ->
  generatePowers_loop ((Z.to_nat n).+1 + extra) 0%sz written
  = generatePowers_loop (Z.to_nat n).+1 0%sz written.
Proof.
move=> n written r1; have n_bound : (0 <= n < size_t_modulus)%sz.
  by apply: Z.mod_pos_bound; rewrite /size_t_modulus.
have sz1 : size powers1 = Z.to_nat n by apply: size_vector_resize r1; lia.
by apply: generatePowers_loop_fuel; rewrite //= sz1; lia.
Qed.

(** The loop, entered at index [k] with the first [k] slots written and [m]
    slots left, writes the remaining slots and exits. *)
Lemma generatePowers_loopP (s r : Fr B) (d : Z) (g1 : G1 B) (g2 : G2 B)
    (m k : nat) (j1 : seq (G1 B)) (j2 : seq (G2 B)) :
  (0 <= d)%sz -> (d + 2 < size_t_modulus)%sz ->
  (Z.of_nat k + Z.of_nat m = d + 2)%sz ->
  size j1 = m -> size j2 = m ->
  generatePowers_loop m.+1 (Z.of_nat k)
    (mkExpressiveTrustedSetup s r d g1 g2
       (mkseq (fun i => s ^+ i *: g1) k ++ j1)
       (mkseq (fun i => s ^+ i *: g2) k ++ j2))
  = Some (mkExpressiveTrustedSetup s r d g1 g2
            (mkseq (fun i => s ^+ i *: g1) (Z.to_nat (d + 2)))
            (mkseq (fun i => s ^+ i *: g2) (Z.to_nat (d + 2)))).
Proof.
move=> d0 dlt.
have wd : size_t_wrap (d + 1) = (d + 1)%sz.
  by apply: size_t_wrap_small; size_lia.
elim: m k j1 j2 => [|m IH] k j1 j2 Hk.
  case: j1 => // _; case: j2 => // _; rewrite /= !cats0 wd.
  have -> : Z.to_nat (d + 2) = k by size_lia.
  by case: Z.leb_spec => //; size_lia.
case: j1 => // y1 j1 [sz1]; case: j2 => // y2 j2 [sz2].
have wk : size_t_wrap (Z.of_nat k + 1) = Z.of_nat k.+1.
  by rewrite size_t_wrap_small; size_lia.
have le_k : (Z.of_nat k <=? d + 1)%sz = true by apply/Z.leb_le; size_lia.
have lt_k n : n = m -> (Z.of_nat k <? Z.of_nat (k + n.+1))%sz = true.
  by move=> _; apply/Z.ltb_lt; rewrite -plusE; lia.
rewrite generatePowers_loopS [max_degree _]/= wd le_k.
rewrite [g1_s_powers _]/= [g2_s_powers _]/= !size_cat !size_mkseq /=.
rewrite !lt_k //= wk Nat2Z.id !set_nth_mkseq_cat.
by apply: IH => //; size_lia.
Qed.

(** When [d + 2] does not wrap and the two [resize] calls succeed,
    [generatePowers] returns, with the hashed generators and the [d + 2]
    powers of each. *)
Lemma generatePowersP pf ts (powers1 : seq (G1 B)) (powers2 : seq (G2 B)) :
  (0 <= max_degree ts)%sz -> (max_degree ts + 2 < size_t_modulus)%sz ->
  vector_resize (G1_vectors pf) (G1_indeterminate B) (max_degree ts + 2)
    (g1_s_powers ts) = Returns powers1 ->
  vector_resize (G2_vectors pf) (G2_indeterminate B) (max_degree ts + 2)
    (g2_s_powers ts) = Returns powers2 ->
  let g1 := hashAndMapToG1 B "expressive_generator_g1" 12 in
  let g2 := hashAndMapToG2 B "expressive_generator_g2" 12 in
  let n := Z.to_nat (max_degree ts + 2) in
  generatePowers pf ts
  = Returned
      (mkExpressiveTrustedSetup (secret_s ts) (secret_r ts) (max_degree ts)
         g1 g2
         (mkseq (fun i => secret_s ts ^+ i *: g1) n)
         (mkseq (fun i => secret_s ts ^+ i *: g2) n)).
Proof.
move=> d0 dlt r1 r2 /=.
have wn : size_t_wrap (max_degree ts + 2) = (max_degree ts + 2)%sz.
  by apply: size_t_wrap_small; size_lia.
have n0 : (0 <= max_degree ts + 2)%sz by lia.
rewrite /generatePowers wn r1 r2.
rewrite (@generatePowers_loopP _ _ _ _ _ _ 0 powers1 powers2) //; first by lia.
- exact: size_vector_resize r1.
- exact: size_vector_resize r2.
Qed.

(** When [d + 2] does not wrap, a setup that [generatePowers] returned has
    the hashed generators and the [d + 2] powers of each. *)
Lemma generatePowers_Returned pf ts ts' :
  (0 <= max_degree ts)%sz -> (max_degree ts + 2 < size_t_modulus)%sz ->
  generatePowers pf ts = Returned ts' ->
  let g1 := hashAndMapToG1 B "expressive_generator_g1" 12 in
  let g2 := hashAndMapToG2 B "expressive_generator_g2" 12 in
  let n := Z.to_nat (max_degree ts + 2) in
  ts' = mkExpressiveTrustedSetup (secret_s ts) (secret_r ts) (max_degree ts)
          g1 g2
          (mkseq (fun i => secret_s ts ^+ i *: g1) n)
          (mkseq (fun i => secret_s ts ^+ i *: g2) n).
Proof.
move=> d0 dlt /=.
case r1: (vector_resize (G1_vectors pf) (G1_indeterminate B)
            (max_degree ts + 2) (g1_s_powers ts)) => [powers1|e]; last first.
  by rewrite /generatePowers size_t_wrap_small ?r1 //; size_lia.
case r2: (vector_resize (G2_vectors pf) (G2_indeterminate B)
            (max_degree ts + 2) (g2_s_powers ts)) => [powers2|e]; last first.
  by rewrite /generatePowers size_t_wrap_small ?r1 ?r2 //; size_lia.
by rewrite (generatePowersP d0 dlt r1 r2) => -[<-].
Qed.

Lemma powers_published_generatePowers pf ts ts' :
  (0 <= max_degree ts)%sz -> (max_degree ts + 2 < size_t_modulus)%sz ->
  generatePowers pf ts = Returned ts' -> powers_published ts'.
Proof. by move=> d0 dlt /(generatePowers_Returned d0 dlt) ->. Qed.



Lemma getG2_s_pow_wraps pf (s r : Fr B) ts' :
  generatePowers pf (ExpressiveTrustedSetup_new s r (size_t_modulus - 1)%sz)
  = Returned ts' ->
  getG2_s_pow ts' 1 = Throws std_out_of_range.
Proof.
rewrite /generatePowers /=.
have -> : size_t_wrap (size_t_modulus - 1 + 2) = 1%sz by [].
rewrite !vector_resize_empty //.
case: Z.ltb_spec => // _; case: ifP => //= _.
case: Z.ltb_spec => // _; case: ifP => //= _.
by move=> [<-].
Qed.

(** C5.  Over a setup whose published powers satisfy the setup invariant, a
    proof with [is_valid = true] is accepted, for ADD, exactly when
    [e(D_new, g2) = e(D_old, g2^s) * e(D_old, g2)^(-x)], and, for DELETE,
    exactly when the attached membership proof verifies against [D_old] and
    [e(D_old, g2) = e(D_new, g2^s) * e(D_new, g2)^(-x)]. *)
Theorem verifyUpdateProof_spec setup (proof : UpdateProof B) :
  (0 <= max_degree setup)%sz -> powers_published setup ->
  uproof_is_valid proof = true ->
  let x : Fr B := (element proof)%:~R in
  let g2 := getG2Generator setup in
  let g2_s := getSecretS setup *: g2 in
  let D_old := value (old_digest proof) in
  let D_new := value (new_digest proof) in
  match op_type proof with
  | ADD =>
      verifyUpdateProof proof setup = true <->
      pairing D_new g2
      = GT_mul (pairing D_old g2_s) (GT_pow (pairing D_old g2) (- x))
  | DELETE =>
      verifyUpdateProof proof setup = true <->
      verifyMembershipProof (old_digest proof) (element proof)
        (membership_proof proof) setup = true
      /\ pairing D_old g2
         = GT_mul (pairing D_new g2_s) (GT_pow (pairing D_new g2) (- x))
  end.
Proof.
move=> d0 [_ Hg2] valid /=; rewrite /verifyUpdateProof valid /=.
have -> : nth (G2_indeterminate B) (g2_s_powers setup) 1
          = getSecretS setup *: getG2Generator setup.
  have En : Z.to_nat (max_degree setup + 2) = (Z.to_nat (max_degree setup)).+2
    by lia.
  by rewrite Hg2 En /= expr1.
case: (op_type proof); first by split=> [/eqP //|->]; exact: eqxx.
case: (verifyMembershipProof _ _ _ _) => /=; last by split=> // -[].
by split=> [/eqP //|[_ ->]]; exact: eqxx.
Qed.

(** *** The verifiers *)

(** C2, amended.  [verifyIntersectionProof] returns true exactly when the
    proof has [is_valid = true] and the three pairing equations hold. *)
Theorem verifyIntersectionProof_spec (digest_A digest_B : AccumulatorDigest B)
    (proof : IntersectionProof B) setup :
  let g1 := getG1Generator setup in
  let g2 := getG2Generator setup in
  let D_I := value (intersection_digest_g1 proof) in
  verifyIntersectionProof digest_A digest_B proof setup = true <->
  [/\ iproof_is_valid proof = true,
      pairing (value digest_A) g2 = pairing D_I (witness_QA_g2 proof),
      pairing (value digest_B) g2 = pairing D_I (witness_QB_g2 proof)
    & GT_mul (pairing (witness_a_g1 proof) (witness_QA_g2 proof))
             (pairing (witness_b_g1 proof) (witness_QB_g2 proof))
      = pairing g1 g2].
Proof.
rewrite /verifyIntersectionProof /=.
case: (iproof_is_valid proof) => /=; last by split=> // -[].
case: eqP => [eA|neA] /=; last by split=> // -[].
case: eqP => [eB|neB] /=; last by split=> // -[].
by case: eqP => [eC|neC] /=; split=> // -[].
Qed.

(** *** Membership *)

Hypothesis pairingP : PairingLaws B.

(** C4.  For an element [x] of a reachable [G1] accumulator,
    [generateMembershipProof] returns [is_member = true] with the witness
    [g2^(Q(s))], [Q] the product of [z - y] over the other elements [y], and
    [verifyMembershipProof] accepts it against the accumulator's digest. *)
Theorem membership_proof_complete setup acc x :
  reachable setup G1_TYPE acc ->
  x \in elements acc ->
  let proof := generateMembershipProof acc x in
  [/\ is_member proof = true,
      witness_g2 proof
      = (\prod_(y <- elements acc | y != x) (getSecretS setup - y%:~R))
          *: getG2Generator setup
    & verifyMembershipProof (getDigest acc) x proof setup = true].
Proof.
move=> /reachable_inv [Hs _ Hso _ _ [Hd _]] xS /=.
rewrite /generateMembershipProof /set_find xS /= CP_evaluateE /= Hs.
have Hrem : char_poly_at (set_erase x (elements acc)) (getSecretS setup)
            = \prod_(y <- elements acc | y != x) (getSecretS setup - y%:~R).
  by rewrite /char_poly_at /set_erase rem_filter ?lt_sorted_uniq // big_filter.
split=> //; first by rewrite Hrem.
rewrite /verifyMembershipProof /= /getDigest Hd /=.
rewrite !(pairing_mul_l pairingP) (pairing_mul_r pairingP).
rewrite (GT_pow_pow pairingP) (char_poly_at_rem _ xS) mulrC.
exact: eqxx.
Qed.

(** C3, amended.  For [x] outside the set of a reachable [G1] accumulator:
    the accumulator's own proof for [x] has [is_member = false] and is
    rejected; a proof with [is_member = true] is accepted exactly when its
    witness [W] satisfies [e(D, g2) = e(g1^(s - x), W)]; and when
    [s - x <> 0] the witness [g2^(P_S(s) / (s - x))] satisfies it. *)
Theorem membership_verifier_spec setup acc x :
  reachable setup G1_TYPE acc -> x \notin elements acc ->
  let D := getDigest acc in
  let s := getSecretS setup in
  [/\ is_member (generateMembershipProof acc x) = false,
      verifyMembershipProof D x (generateMembershipProof acc x) setup = false,
      forall proof, is_member proof = true ->
        (verifyMembershipProof D x proof setup = true <->
         pairing (value D) (getG2Generator setup)
         = pairing ((s - x%:~R) *: getG1Generator setup) (witness_g2 proof))
    & s - x%:~R != 0 ->
      verifyMembershipProof D x
        (mkMembershipProof
           ((char_poly_at (elements acc) s / (s - x%:~R))
              *: getG2Generator setup) true)
        setup = true].
Proof.
move=> /reachable_inv [_ _ _ _ _ [dA _]] xS /=.
rewrite /generateMembershipProof /set_find xS /=; split=> //.
  by move=> proof mem; rewrite /verifyMembershipProof mem /=; split=> /eqP.
move=> sx; rewrite /verifyMembershipProof /= /getDigest dA /=.
rewrite !(pairing_mul_l pairingP) (pairing_mul_r pairingP).
by rewrite (GT_pow_pow pairingP) (divfK sx) eqxx.
Qed.

(** In every backend, over a setup with [s = 4], the witness [g2^5] makes
    the verifier accept [13] as a member of [{1, 3, 5, 7, 9}], because
    [(4-1)(4-3)(4-5)(4-7)(4-9) = 5 * (4 - 13)]. *)
Lemma forged_membership_accepted setup :
  getSecretS setup = 4%:~R ->
  let acc :=
    add_all (ExpressiveAccumulator_new setup G1_TYPE) [:: 1; 3; 5; 7; 9] in
  13 \notin elements acc
  /\ verifyMembershipProof (getDigest acc) 13
       (mkMembershipProof (5%:~R *: getG2Generator setup) true) setup = true.
Proof.
move=> s4; split=> //; rewrite /verifyMembershipProof /=.
rewrite !(pairing_mul_l pairingP) (pairing_mul_r pairingP).
rewrite (GT_pow_pow pairingP) /CP_evaluate /= /getSecretS.
set E := pairing _ _.
have -> : 1 * (secret_s setup - 1%:~R) * (secret_s setup - 3%:~R)
          * (secret_s setup - 5%:~R) * (secret_s setup - 7%:~R)
          * (secret_s setup - 9%:~R)
          = 5%:~R * (secret_s setup - 13%:~R).
  by rewrite -/(getSecretS setup) s4; ring.
exact: eqxx.
Qed.

(** *** Intersection *)

Lemma CP_intersectionE S T :
  sorted <%R S -> sorted <%R T ->
  CP_intersection S T = [seq x <- S | x \in T].
Proof.
move=> sS sT; rewrite /CP_intersection std_set_intersectionE //.
by rewrite set_of_range_sorted // sorted_filter_lt.
Qed.

Hypothesis int_embeds : IntEmbeds B.

(** Characteristic polynomials of disjoint sets of [int]s are coprime. *)
Lemma coprimep_fromRoots S T :
  all is_int S -> all is_int T -> {in S, forall x, x \notin T} ->
  coprimep (fromRoots B S) (fromRoots B T).
Proof.
move=> /allP iS /allP iT disj; rewrite !fromRootsE.
elim: S iS disj => [|x S IH] iS disj; first by rewrite big_nil coprime1p.
rewrite big_cons coprimepMl; apply/andP; split; last first.
  by apply: IH => y yS; [apply: iS | apply: disj]; rewrite inE yS orbT.
rewrite coprimep_sym coprimep_XsubC.
rewrite -(big_map intr xpredT (fun c => 'X - c%:P)) root_prod_XsubC.
apply/mapP => -[y yT /int_embeds exy].
have xx : x \in x :: S by rewrite inE eqxx.
by move: (disj x xx); rewrite (exy (iS x xx) (iT y yT)) yT.
Qed.

Hypothesis xgcdP : XgcdContract B.

(** On coprime polynomials the extended gcd returns the gcd [1] and its
    Bezout cofactors. *)
Lemma xgcd_coprime (p q : {poly (Fr B)}) :
  coprimep p q ->
  let: (g, u, v) := fmpz_mod_poly_xgcd p q in g = 1 /\ u * p + v * q = 1.
Proof.
move=> cpq; case E: (fmpz_mod_poly_xgcd p q) (xgcdP p q) => [[g u] v].
move=> [bez gp gq mon].
have g1 : g %= 1 by apply: (coprimepP _ _ cpq).
have gn0 : g != 0 by rewrite -size_poly_eq0 (eqp_size g1) size_poly1.
move: mon; rewrite (negbTE gn0) /= => mon.
suff g_1 : g = 1 by rewrite bez.
by apply/eqP; rewrite -eqp_monic ?monic1.
Qed.

(** C1.  For two [G1] accumulators over the same setup, populated by
    [addElement] only, [generateIntersectionProof] returns a proof with
    [is_valid = true] whose intersection digest is [g1^(P_I(s))] for the
    intersection [I] of the two sets, and [verifyIntersectionProof] accepts
    it against the two digests. *)
Theorem intersection_proof_complete setup accA accB :
  built_by_add setup G1_TYPE accA -> built_by_add setup G1_TYPE accB ->
  let proof := generateIntersectionProof accA accB setup in
  let I := [seq x <- elements accA | x \in elements accB] in
  [/\ iproof_is_valid proof = true,
      value (intersection_digest_g1 proof)
      = char_poly_at I (getSecretS setup) *: getG1Generator setup
    & verifyIntersectionProof (getDigest accA) (getDigest accB) proof setup
      = true].
Proof.
move=> /built_by_add_reachable /reachable_inv [_ _ sA iA _ [dA _]].
move=> /built_by_add_reachable /reachable_inv [_ _ sB iB _ [dB _]].
rewrite /generateIntersectionProof /getElements /getDigest dA dB.
move: (elements accA) (elements accB) sA iA sB iB => SA SB sA iA sB iB {dA dB}.
set s := getSecretS setup; set g1 := getG1Generator setup.
set g2 := getG2Generator setup.
rewrite -/(getSecretS setup) -/(getG1Generator setup) -/s -/g1.
rewrite CP_intersectionE //; set I := [seq x <- SA | x \in SB].
have sI : sorted <%R I by exact: sorted_filter_lt.
have memI : I =i [predI SA & SB] by move=> x; rewrite mem_filter andbC.
have memI' : I =i [predI SB & SA] by move=> x; rewrite mem_filter.
rewrite (difference_intersection sA sI memI).
rewrite (difference_intersection sB sI memI').
rewrite !set_of_range_sorted ?sorted_filter_lt //.
set DA := [seq x <- SA | x \notin SB]; set DB := [seq x <- SB | x \notin SA].
have cop : coprimep (fromRoots B DA) (fromRoots B DB).
  apply: coprimep_fromRoots.
  - by apply/allP => x; rewrite mem_filter => /andP [_ /(allP iA)].
  - by apply/allP => x; rewrite mem_filter => /andP [_ /(allP iB)].
  by move=> x; rewrite !mem_filter => /andP [_ ->].
case: (fmpz_mod_poly_xgcd _ _) (xgcd_coprime cop) => [[g u] v] [-> bez].
rewrite eqxx /= !evaluate_fromRoots; split=> //.
have PA : char_poly_at SA s = char_poly_at I s * char_poly_at DA s.
  exact: char_poly_at_split.
have PB : char_poly_at SB s = char_poly_at I s * char_poly_at DB s.
  rewrite (char_poly_at_split SB (mem SA)); congr (_ * _).
  apply/char_poly_at_perm/uniq_perm; rewrite ?filter_uniq ?lt_sorted_uniq //.
  by move=> x; rewrite memI' mem_filter !inE andbC.
have bezs : PolynomialUtils_evaluate u s * char_poly_at DA s
            + PolynomialUtils_evaluate v s * char_poly_at DB s = 1.
  rewrite -!evaluate_fromRoots /PolynomialUtils_evaluate /fmpzToFr /frToFmpz.
  by rewrite -!hornerM -hornerD bez hornerC.
rewrite /verifyIntersectionProof /=.
rewrite !(pairing_mul_l pairingP) !(pairing_mul_r pairingP).
rewrite !(GT_pow_pow pairingP) PA PB ![_ * char_poly_at I s]mulrC !eqxx /=.
rewrite ![char_poly_at _ s * PolynomialUtils_evaluate _ s]mulrC.
by rewrite (GT_pow_add pairingP) bezs (GT_pow_1 pairingP) eqxx.
Qed.

End Properties.

(** ** Further properties of the program

    Properties of the functions above that the code shows beyond the
    statements of the specification: the effect of the updates on the
    state, the proofs the accumulator returns and what the verifiers make of
    them, and the edges of the trusted setup. *)

(** *** Insertion into a set *)

Section SetInsert.

Implicit Types (x y : int) (s : seq int).

Lemma perm_set_insert x s : x \notin s -> perm_eq (set_insert x s) (x :: s).
Proof.
elim: s => [|y s IH] //=; rewrite inE negb_or => /andP [xy xs].
case: ifP => _ //; rewrite (negbTE xy).
rewrite -(perm_cons y) in IH; apply: (perm_trans (IH xs)).
by rewrite -[y :: x :: s]/([:: y; x] ++ s) -[x :: y :: s]/([:: x; y] ++ s)
           perm_cat2r (perm_catC [:: y] [:: x]).
Qed.

End SetInsert.

(** *** The element set after updates *)

Section Elements.

Variable B : Backend.

Implicit Types (setup ts : ExpressiveTrustedSetup B)
  (acc : ExpressiveAccumulator B) (x y : int) (a : Fr B) (S T : seq int).

Lemma is_member_generate acc y :
  is_member (generateMembershipProof acc y) = (y \in elements acc).
Proof.
by rewrite /generateMembershipProof /set_find; case: (y \in elements acc).
Qed.

Lemma updateAccumulatorValue_elements acc :
  elements (updateAccumulatorValue acc) = elements acc.
Proof. by rewrite /updateAccumulatorValue; case: (group_type acc). Qed.

Lemma addElement_elements acc x :
  elements (addElement acc x).1 =i x :: elements acc.
Proof.
move=> y; rewrite /addElement /set_find /=; case: ifP => [_|/negbFE xS] /=.
  by rewrite updateAccumulatorValue_elements /= mem_set_insert inE.
by rewrite inE; case: eqP => // ->.
Qed.

Lemma deleteElement_elements acc x :
  uniq (elements acc) ->
  elements (deleteElement acc x).1 =i [predD1 elements acc & x].
Proof.
move=> uS y; rewrite /deleteElement /set_find.
case: ifP => [xS|/negbFE xS] /=.
  by rewrite !inE; case: eqP => // ->; rewrite (negbTE xS).
rewrite is_member_generate xS /= updateAccumulatorValue_elements /=.
by rewrite /set_erase mem_rem_uniq.
Qed.

(** An accumulator that satisfies the invariant is determined by its
    element set. *)
Lemma acc_inv_eq setup type acc1 acc2 :
  acc_inv setup type acc1 -> acc_inv setup type acc2 ->
  elements acc1 =i elements acc2 -> acc1 = acc2.
Proof.
move=> [s1 t1 so1 _ p1 d1] [s2 t2 so2 _ p2 d2] e12.
have eE : elements acc1 = elements acc2 by apply: lt_sorted_eq.
case: acc1 s1 t1 so1 p1 d1 eE {e12} => ts1 S1 [P1] ty1 D1 E1 /=.
case: acc2 s2 t2 so2 p2 d2 => ts2 S2 [P2] ty2 D2 E2 /=.
move=> -> -> _ -> d2 -> -> _ -> d1 eS; rewrite -eS in d2 *.
by case: type d1 d2 => -[-> ->] [-> ->].
Qed.

(** X1.  The state of an accumulator depends only on its element set: two
    accumulators reached over the same setup and group type by any
    sequences of [addElement] and [deleteElement] that hold the same
    elements are equal, digests included. *)
Theorem history_independence setup type acc1 acc2 :
  reachable setup type acc1 -> reachable setup type acc2 ->
  elements acc1 =i elements acc2 ->
  acc1 = acc2.
Proof.
by move=> /reachable_inv i1 /reachable_inv i2; exact: (acc_inv_eq i1 i2).
Qed.

(** X2.  On a reachable accumulator, adding an absent element and deleting
    it again, or deleting a present element and adding it again, gives back
    the accumulator. *)
Theorem add_delete_round_trip setup type acc x :
  reachable setup type acc -> is_int x ->
  (x \notin elements acc -> (deleteElement (addElement acc x).1 x).1 = acc)
  /\ (x \in elements acc -> (addElement (deleteElement acc x).1 x).1 = acc).
Proof.
move=> racc ix; have inv := reachable_inv racc.
have uS : uniq (elements acc) by case: inv => _ _ /lt_sorted_uniq.
have radd := reachable_add racc ix; have rdel := reachable_delete racc ix.
have uadd : uniq (elements (addElement acc x).1).
  by case: (reachable_inv radd) => _ _ /lt_sorted_uniq.
split=> xS.
- apply: (acc_inv_eq (reachable_inv (reachable_delete radd ix)) inv) => y.
  rewrite deleteElement_elements // !inE addElement_elements inE.
  by case: eqP => // ->; rewrite (negbTE xS).
- apply: (acc_inv_eq (reachable_inv (reachable_add rdel ix)) inv) => y.
  rewrite addElement_elements inE deleteElement_elements // !inE.
  by case: eqP => // ->.
Qed.

(** X3.  The [is_member] flag of [generateMembershipProof] follows the
    updates: after [addElement(x)] it is set for [x] and for the elements
    it was set for before; after [deleteElement(x)] it is clear for [x] and
    unchanged for every other element. *)
Theorem membership_lookup_after_update setup type acc x y :
  reachable setup type acc ->
  is_member (generateMembershipProof (addElement acc x).1 y)
  = (y == x) || is_member (generateMembershipProof acc y)
  /\ is_member (generateMembershipProof (deleteElement acc x).1 y)
     = (y != x) && is_member (generateMembershipProof acc y).
Proof.
move=> /reachable_inv [_ _ so _ _ _]; rewrite !is_member_generate.
by rewrite addElement_elements inE deleteElement_elements ?lt_sorted_uniq.
Qed.

End Elements.

(** *** The proofs returned by the updates *)

Section Updates.

Variable B : Backend.

Implicit Types (setup ts : ExpressiveTrustedSetup B)
  (acc : ExpressiveAccumulator B) (x y : int) (a b : Fr B) (S T : seq int).

Lemma char_poly_at_insert S x a :
  x \notin S ->
  char_poly_at (set_insert x S) a = (a - x%:~R) * char_poly_at S a.
Proof.
by move=> xS; rewrite /char_poly_at (perm_big _ (perm_set_insert xS)) big_cons.
Qed.

Lemma published_g2_s setup :
  (0 <= max_degree setup)%sz -> powers_published setup ->
  nth (G2_indeterminate B) (g2_s_powers setup) 1
  = getSecretS setup *: getG2Generator setup.
Proof.
move=> d0 [_ ->].
have -> : Z.to_nat (max_degree setup + 2) = (Z.to_nat (max_degree setup)).+2.
  by lia.
by rewrite /= expr1.
Qed.

(** The proof returned by [addElement] for a new element, and the one
    returned by [deleteElement] for a present element. *)
Lemma addElement_absent_proof setup type acc x :
  acc_inv setup type acc -> x \notin elements acc ->
  let P := char_poly_at (elements acc) (getSecretS setup) in
  (addElement acc x).2
  = mkUpdateProof ADD (digest_g1 acc)
      (match type with
       | G1_TYPE =>
           mkAccumulatorDigest
             (((getSecretS setup - x%:~R) * P) *: getG1Generator setup)
       | G2_TYPE => digest_g1 acc
       end)
      x MembershipProof_new true.
Proof.
move=> [Hs Ht _ _ Hp _] xS /=; rewrite /addElement /set_find xS /=.
rewrite /getDigest /updateAccumulatorValue /= Ht Hs CP_evaluateE /= Hp.
by case: type {Ht}; rewrite //= char_poly_at_insert.
Qed.

Lemma deleteElement_present_proof setup type acc x :
  acc_inv setup type acc -> x \in elements acc ->
  let Q := char_poly_at (set_erase x (elements acc)) (getSecretS setup) in
  (deleteElement acc x).2
  = mkUpdateProof DELETE (digest_g1 acc)
      (match type with
       | G1_TYPE => mkAccumulatorDigest (Q *: getG1Generator setup)
       | G2_TYPE => digest_g1 acc
       end)
      x (mkMembershipProof (Q *: getG2Generator setup) true) true.
Proof.
move=> [Hs Ht _ _ Hp _] xS /=.
rewrite /deleteElement /generateMembershipProof /set_find xS /=.
rewrite /getDigest /updateAccumulatorValue /= Ht Hs !CP_evaluateE /= Hp.
by case: type {Ht}.
Qed.

Hypothesis pairingP : PairingLaws B.

Lemma pairing_exponents (P : G1 B) (Q : G2 B) a b :
  pairing (a *: P) (b *: Q) = GT_pow (pairing P Q) (a * b).
Proof.
by rewrite (pairing_mul_l pairingP) (pairing_mul_r pairingP)
           (GT_pow_pow pairingP) mulrC.
Qed.

Lemma verifyMembershipProof_exponents setup a b x :
  verifyMembershipProof (mkAccumulatorDigest (a *: getG1Generator setup)) x
    (mkMembershipProof (b *: getG2Generator setup) true) setup
  = (GT_pow (pairing (getG1Generator setup) (getG2Generator setup)) a
     == GT_pow (pairing (getG1Generator setup) (getG2Generator setup))
          (b * (getSecretS setup - x%:~R))).
Proof.
rewrite /verifyMembershipProof /= pairing_exponents (pairing_mul_l pairingP).
by rewrite mulrC.
Qed.

Section Published.

Variable setup : ExpressiveTrustedSetup B.
Hypothesis d0 : (0 <= max_degree setup)%sz.
Hypothesis published : powers_published setup.

Let E := pairing (getG1Generator setup) (getG2Generator setup).
Let s := getSecretS setup.

Lemma verifyUpdateProof_add_exponents a b x mp :
  verifyUpdateProof
    (mkUpdateProof ADD (mkAccumulatorDigest (a *: getG1Generator setup))
       (mkAccumulatorDigest (b *: getG1Generator setup)) x mp true) setup
  = (GT_pow E b == GT_pow E (a * (s - x%:~R))).
Proof.
rewrite /verifyUpdateProof /= (published_g2_s d0 published).
rewrite pairing_exponents !(pairing_mul_l pairingP) (GT_pow_pow pairingP).
rewrite (GT_pow_add pairingP) -/E.
by have -> : a * getSecretS setup + a * - x%:~R = a * (s - x%:~R)
  by rewrite /s; ring.
Qed.

Lemma verifyUpdateProof_delete_exponents a b w x :
  verifyUpdateProof
    (mkUpdateProof DELETE (mkAccumulatorDigest (a *: getG1Generator setup))
       (mkAccumulatorDigest (b *: getG1Generator setup)) x
       (mkMembershipProof (w *: getG2Generator setup) true) true) setup
  = (GT_pow E a == GT_pow E (w * (s - x%:~R)))
    && (GT_pow E a == GT_pow E (b * (s - x%:~R))).
Proof.
rewrite /verifyUpdateProof /= verifyMembershipProof_exponents -/E -/s.
case: (_ == _) => //=; rewrite (published_g2_s d0 published).
rewrite pairing_exponents !(pairing_mul_l pairingP) (GT_pow_pow pairingP).
rewrite (GT_pow_add pairingP) -/E.
by have -> : b * getSecretS setup + b * - x%:~R = b * (s - x%:~R)
  by rewrite /s; ring.
Qed.

End Published.

End Updates.

(** *** Verification of the returned update proofs *)

Section UpdateProofs.

Variable B : Backend.
Hypothesis pairingP : PairingLaws B.

Variable setup : ExpressiveTrustedSetup B.
Hypothesis d0 : (0 <= max_degree setup)%sz.
Hypothesis published : powers_published setup.

Implicit Types (acc : ExpressiveAccumulator B) (x y : int).

(** X4.  Over a setup with its powers published, the proof that
    [addElement] returns when it inserts a new element into a reachable [G1]
    accumulator is accepted by [verifyUpdateProof]. *)
Theorem addElement_proof_verifies acc x :
  reachable setup G1_TYPE acc -> x \notin elements acc ->
  verifyUpdateProof (addElement acc x).2 setup = true.
Proof.
move=> /reachable_inv inv xS.
rewrite (addElement_absent_proof inv xS); case: inv => _ _ _ _ _ [-> _].
rewrite (verifyUpdateProof_add_exponents pairingP d0 published).
by rewrite /getSecretS mulrC eqxx.
Qed.

(** X5.  Likewise the proof that [deleteElement] returns when it removes a
    present element from a reachable [G1] accumulator is accepted by
    [verifyUpdateProof]. *)
Theorem deleteElement_proof_verifies acc x :
  reachable setup G1_TYPE acc -> x \in elements acc ->
  verifyUpdateProof (deleteElement acc x).2 setup = true.
Proof.
move=> /reachable_inv inv xS.
rewrite (deleteElement_present_proof inv xS); case: inv => _ _ _ _ _ [-> _].
rewrite (verifyUpdateProof_delete_exponents pairingP d0 published).
by rewrite (char_poly_at_rem _ xS) mulrC eqxx.
Qed.

Lemma AccumulatorDigest_new0 :
  @AccumulatorDigest_new B = mkAccumulatorDigest (0 *: getG1Generator setup).
Proof. by rewrite scale0r. Qed.

(** X6.  [getDigest] returns the [G1] digest, which a [G2] accumulator never
    writes: the proof [addElement] returns for a reachable [G2] accumulator
    carries the identity as old and new digest, and over a setup with its
    powers published [verifyUpdateProof] accepts it whatever the element. *)
Theorem G2_addElement_proof acc x :
  reachable setup G2_TYPE acc ->
  [/\ old_digest (addElement acc x).2 = AccumulatorDigest_new,
      new_digest (addElement acc x).2 = AccumulatorDigest_new
    & verifyUpdateProof (addElement acc x).2 setup = true].
Proof.
move=> /reachable_inv inv.
have addP : (addElement acc x).2
            = mkUpdateProof ADD AccumulatorDigest_new AccumulatorDigest_new x
                MembershipProof_new true.
  case xS: (x \in elements acc).
    case: inv => _ _ _ _ _ [Hd _].
    by rewrite /addElement /set_find xS /= /getDigest Hd.
  rewrite (addElement_absent_proof inv (negbT xS)).
  by case: inv => _ _ _ _ _ [-> _].
split; rewrite ?addP // AccumulatorDigest_new0.
rewrite (verifyUpdateProof_add_exponents pairingP d0 published).
by rewrite mul0r eqxx.
Qed.

Hypothesis nondeg : NonDegenerate setup.

Lemma GT_pow_eq (a b : Fr B) :
  (GT_pow (pairing (getG1Generator setup) (getG2Generator setup)) a
   == GT_pow (pairing (getG1Generator setup) (getG2Generator setup)) b)
  = (a == b).
Proof. by apply/eqP/eqP => [/nondeg|->]. Qed.

(** X7.  The proof that [addElement] returns for an element that is already
    present has [is_valid = true] and equal digests; over a setup with its
    powers published, [verifyUpdateProof] accepts it only in the degenerate
    cases [P_S(s) = 0] and [s = x + 1]. *)
Theorem addElement_duplicate_proof acc x :
  reachable setup G1_TYPE acc -> x \in elements acc ->
  verifyUpdateProof (addElement acc x).2 setup
  = (char_poly_at (elements acc) (getSecretS setup) == 0)
    || (getSecretS setup == x%:~R + 1).
Proof.
move=> /reachable_inv [_ _ _ _ _ [Hd _]] xS.
rewrite /addElement /set_find xS /= /getDigest Hd.
rewrite (verifyUpdateProof_add_exponents pairingP d0 published) GT_pow_eq.
rewrite /getSecretS; set P := char_poly_at _ _.
have -> : (P == P * (secret_s setup - x%:~R))
          = (P * (1 - (secret_s setup - x%:~R)) == 0).
  by rewrite [P * (1 - _)]mulrBr mulr1 subr_eq0.
by rewrite mulf_eq0 subr_eq0 [1 == _]eq_sym subr_eq [1 + _]addrC.
Qed.

(** X8.  An ADD proof is bound to its element: over a setup with its powers
    published, the proof returned for a new element [x], with [y] written
    in its [element] field, is accepted only if [y] and [x] are the same
    scalar, or [P_S(s) = 0]. *)
Theorem update_proof_wrong_element acc x y :
  reachable setup G1_TYPE acc -> x \notin elements acc ->
  let p := (addElement acc x).2 in
  verifyUpdateProof
    (mkUpdateProof ADD (old_digest p) (new_digest p) y
       (membership_proof p) true) setup
  = (char_poly_at (elements acc) (getSecretS setup) == 0)
    || (y%:~R == x%:~R :> Fr B).
Proof.
move=> /reachable_inv inv xS p; rewrite /p {p}.
rewrite (addElement_absent_proof inv xS) /=.
case: inv => _ _ _ _ _ [-> _].
rewrite (verifyUpdateProof_add_exponents pairingP d0 published) GT_pow_eq.
rewrite /getSecretS; set P := char_poly_at _ _.
rewrite mulrC -subr_eq0 -mulrBr mulf_eq0; congr (_ || _).
by rewrite subr_eq0 (inj_eq (addrI _)) eqr_opp eq_sym.
Qed.

(** X9.  The proof [deleteElement] returns when it removes a present
    element from a reachable [G2] accumulator compares identity digests with
    a witness for the real set: over a setup with its powers published,
    [verifyUpdateProof] accepts it only if [P_S(s) = 0]. *)
Theorem G2_deleteElement_proof acc x :
  reachable setup G2_TYPE acc -> x \in elements acc ->
  verifyUpdateProof (deleteElement acc x).2 setup
  = (char_poly_at (elements acc) (getSecretS setup) == 0).
Proof.
move=> /reachable_inv inv xS; rewrite (deleteElement_present_proof inv xS).
case: inv => _ _ _ _ _ [-> _]; rewrite AccumulatorDigest_new0.
rewrite (verifyUpdateProof_delete_exponents pairingP d0 published).
rewrite mul0r eqxx andbT GT_pow_eq [_ * (_ - _)]mulrC /set_erase.
by rewrite -(char_poly_at_rem _ xS) eq_sym.
Qed.

End UpdateProofs.

(** *** Digests, polynomials and set intersection *)

Section Digests.

Variable B : Backend.

Implicit Types (setup ts : ExpressiveTrustedSetup B)
  (acc : ExpressiveAccumulator B) (x y : int) (a : Fr B) (S T : seq int).

(** X10.  The digest of the chosen group follows the element set
    multiplicatively: inserting a new element [x] raises it to [s - x], and
    the digest before a removal of [x] is the digest after it raised to
    [s - x]. *)
Theorem digest_update_law setup type acc x :
  reachable setup type acc ->
  let s := getSecretS setup in
  (x \notin elements acc ->
   match type with
   | G1_TYPE =>
       value (getDigest (addElement acc x).1)
       = (s - x%:~R) *: value (getDigest acc)
   | G2_TYPE =>
       valueG2 (getDigestG2 (addElement acc x).1)
       = (s - x%:~R) *: valueG2 (getDigestG2 acc)
   end)
  /\ (x \in elements acc ->
      match type with
      | G1_TYPE =>
          value (getDigest acc)
          = (s - x%:~R) *: value (getDigest (deleteElement acc x).1)
      | G2_TYPE =>
          valueG2 (getDigestG2 acc)
          = (s - x%:~R) *: valueG2 (getDigestG2 (deleteElement acc x).1)
      end).
Proof.
move=> /reachable_inv [Hs Ht _ _ Hp Hd] /=; split=> xS.
- rewrite /addElement /set_find xS /= /getDigest /getDigestG2.
  rewrite /updateAccumulatorValue /= Ht Hs CP_evaluateE /= Hp.
  rewrite char_poly_at_insert // /getSecretS /getG1Generator /getG2Generator.
  by case: type Hd {Ht} => -[-> ->] /=; rewrite scalerA.
- rewrite /deleteElement /set_find xS /= is_member_generate xS /=.
  rewrite /getDigest /getDigestG2 /updateAccumulatorValue /= Ht Hs.
  rewrite CP_evaluateE /= Hp /getSecretS /getG1Generator /getG2Generator.
  by case: type Hd {Ht} => -[-> ->] /=; rewrite scalerA -char_poly_at_rem.
Qed.

(** X11.  The order in which a fresh accumulator is populated does not
    matter: adding the elements of two lists that are permutations of each
    other gives equal accumulators. *)
Theorem add_all_perm setup type (xs ys : seq int) :
  all is_int xs -> perm_eq xs ys ->
  add_all (ExpressiveAccumulator_new setup type) xs
  = add_all (ExpressiveAccumulator_new setup type) ys.
Proof.
move=> ixs pxy.
have iys : all is_int ys by rewrite -(perm_all _ pxy).
have mem_add_all zs acc : elements (add_all acc zs) =i zs ++ elements acc.
  elim: zs acc => [|z zs IH] acc y //=.
  by rewrite IH !mem_cat addElement_elements !inE mem_cat orbCA.
apply: (@acc_inv_eq _ setup type).
- by apply/reachable_inv/built_by_add_reachable; apply: built_by_add_all => //;
     exact: built_new.
- by apply/reachable_inv/built_by_add_reachable; apply: built_by_add_all => //;
     exact: built_new.
by move=> y; rewrite !mem_add_all !mem_cat (perm_mem pxy).
Qed.

(** X12.  [fromRoots] returns a monic polynomial of degree the number of
    roots given, whose roots are exactly the scalars of the given
    elements. *)
Theorem fromRoots_spec S :
  [/\ fromRoots B S \is monic,
      size (fromRoots B S) = (size S).+1
    & forall a, root (fromRoots B S) a = has (fun x => a == x%:~R) S].
Proof.
rewrite fromRootsE; split.
- by apply: monic_prod => x _; rewrite monicXsubC.
- by rewrite -(big_map intr xpredT (fun c => 'X - c%:P))
             size_prod_XsubC size_map.
move=> a; rewrite -(big_map intr xpredT (fun c => 'X - c%:P)) root_prod_XsubC.
by apply/mapP/hasP => [[x xS ->]|[x xS /eqP ->]]; exists x.
Qed.

Lemma CP_intersectionC S T :
  sorted <%R S -> sorted <%R T -> CP_intersection S T = CP_intersection T S.
Proof.
move=> sS sT; rewrite !CP_intersectionE //.
apply: lt_sorted_eq; try exact: sorted_filter_lt.
by move=> x; rewrite !mem_filter andbC.
Qed.

(** X13.  On two sets, [CharacteristicPolynomial::intersection] returns a
    set that holds exactly the common elements, and does not depend on the
    order of its arguments. *)
Theorem CP_intersection_spec S T :
  sorted <%R S -> sorted <%R T ->
  [/\ sorted <%R (CP_intersection S T),
      CP_intersection S T =i [predI S & T]
    & CP_intersection S T = CP_intersection T S].
Proof.
move=> sS sT; split; last exact: CP_intersectionC.
- by rewrite CP_intersectionE //; exact: sorted_filter_lt.
- by move=> x; rewrite CP_intersectionE // mem_filter andbC.
Qed.

(** X14.  When the [G1] generator is not the identity, the digest of a
    reachable [G1] accumulator is the identity exactly when the secret [s]
    is the scalar of one of its elements. *)
Theorem digest_is_identity setup acc :
  reachable setup G1_TYPE acc -> getG1Generator setup != 0 ->
  is_identity (getDigest acc)
  = has (fun x => getSecretS setup == x%:~R) (elements acc).
Proof.
move=> /reachable_inv [_ _ _ _ _ [Hd _]] g0.
rewrite /is_identity /getDigest Hd /= scaler_eq0 (negbTE g0) orbF.
rewrite /char_poly_at prodf_seq_eq0; apply: eq_has => x /=.
by rewrite subr_eq0.
Qed.

End Digests.

(** *** Intersection proofs *)

Section Intersections.

Variable B : Backend.

Implicit Types (setup ts : ExpressiveTrustedSetup B)
  (acc : ExpressiveAccumulator B) (x y : int) (a : Fr B) (S T : seq int).

(** The three fields of the proof that do not depend on the extended gcd. *)
Lemma generateIntersectionProof_fields accA accB setup :
  let s := getSecretS setup in
  let I := CP_intersection (getElements accA) (getElements accB) in
  let DA := set_of_range (std_set_difference (getElements accA) I) in
  let DB := set_of_range (std_set_difference (getElements accB) I) in
  let proof := generateIntersectionProof accA accB setup in
  [/\ intersection_digest_g1 proof
      = mkAccumulatorDigest (char_poly_at I s *: getG1Generator setup),
      witness_QA_g2 proof = char_poly_at DA s *: getG2Generator setup
    & witness_QB_g2 proof = char_poly_at DB s *: getG2Generator setup].
Proof.
rewrite /= /generateIntersectionProof !evaluate_fromRoots.
by case: (fmpz_mod_poly_xgcd _ _) => [[g u] v]; case: ifP.
Qed.

Lemma difference_sets S T :
  sorted <%R S -> sorted <%R T ->
  set_of_range (std_set_difference S (CP_intersection S T))
  = [seq x <- S | x \notin T]
  /\ set_of_range (std_set_difference T (CP_intersection S T))
     = [seq x <- T | x \notin S].
Proof.
move=> sS sT; rewrite CP_intersectionE //.
have sI : sorted <%R [seq x <- S | x \in T] by exact: sorted_filter_lt.
have memI : [seq x <- S | x \in T] =i [predI S & T].
  by move=> x; rewrite mem_filter andbC.
have memI' : [seq x <- S | x \in T] =i [predI T & S].
  by move=> x; rewrite mem_filter.
rewrite (difference_intersection sS sI memI).
rewrite (difference_intersection sT sI memI').
by rewrite !set_of_range_sorted //; exact: sorted_filter_lt.
Qed.

(** X15.  For any two accumulators, the intersection digest of the
    generated proof is the one a caller recomputes with
    [CharacteristicPolynomial::intersection] and
    [CharacteristicPolynomial::evaluate], whether or not the proof is
    valid. *)
Theorem intersection_digest_recomputed accA accB setup :
  value (intersection_digest_g1 (generateIntersectionProof accA accB setup))
  = CP_evaluate
      (mkCharacteristicPolynomial
         (CP_intersection (getElements accA) (getElements accB)))
      (getSecretS setup)
    *: getG1Generator setup.
Proof.
by have [-> _ _] := generateIntersectionProof_fields accA accB setup;
   rewrite CP_evaluateE.
Qed.

(** X16.  The intersection digest of the proof for two reachable [G1]
    accumulators is the digest of any reachable [G1] accumulator that holds
    their common elements. *)
Theorem intersection_digest_of_accumulator setup accA accB accI :
  reachable setup G1_TYPE accA -> reachable setup G1_TYPE accB ->
  reachable setup G1_TYPE accI ->
  elements accI =i [predI elements accA & elements accB] ->
  intersection_digest_g1 (generateIntersectionProof accA accB setup)
  = getDigest accI.
Proof.
move=> /reachable_inv [_ _ sA _ _ _] /reachable_inv [_ _ sB _ _ _].
move=> /reachable_inv [_ _ sI _ _ [dI _]] memI.
have [-> _ _] := generateIntersectionProof_fields accA accB setup.
rewrite /getDigest dI /getElements CP_intersectionE //.
congr (mkAccumulatorDigest (_ *: _)).
congr (char_poly_at _ _); apply: lt_sorted_eq => //.
  exact: sorted_filter_lt.
by move=> x; rewrite memI mem_filter andbC.
Qed.

(** X17.  Exchanging the two accumulators keeps the intersection digest
    and exchanges the two quotient witnesses. *)
Theorem intersection_proof_symmetric setup accA accB :
  sorted <%R (elements accA) -> sorted <%R (elements accB) ->
  let pAB := generateIntersectionProof accA accB setup in
  let pBA := generateIntersectionProof accB accA setup in
  [/\ intersection_digest_g1 pBA = intersection_digest_g1 pAB,
      witness_QA_g2 pBA = witness_QB_g2 pAB
    & witness_QB_g2 pBA = witness_QA_g2 pAB].
Proof.
move=> sA sB /=.
have [-> -> ->] := generateIntersectionProof_fields accA accB setup.
have [-> -> ->] := generateIntersectionProof_fields accB accA setup.
by rewrite /getElements (CP_intersectionC sA sB).
Qed.

Hypothesis pairingP : PairingLaws B.
Hypothesis int_embeds : IntEmbeds B.
Hypothesis xgcdP : XgcdContract B.

(** The proof generated from two accumulators that satisfy the invariant. *)
Lemma generateIntersectionProof_inv setup tA tB accA accB :
  acc_inv setup tA accA -> acc_inv setup tB accB ->
  let s := getSecretS setup in
  let I := [seq x <- elements accA | x \in elements accB] in
  let DA := [seq x <- elements accA | x \notin elements accB] in
  let DB := [seq x <- elements accB | x \notin elements accA] in
  exists u v : Fr B,
    generateIntersectionProof accA accB setup
    = mkIntersectionProof
        (mkAccumulatorDigest (char_poly_at I s *: getG1Generator setup))
        (char_poly_at DA s *: getG2Generator setup)
        (char_poly_at DB s *: getG2Generator setup)
        (u *: getG1Generator setup) (v *: getG1Generator setup) true
    /\ u * char_poly_at DA s + v * char_poly_at DB s = 1.
Proof.
move=> [_ _ sA iA _ _] [_ _ sB iB _ _] /=.
rewrite /generateIntersectionProof /getElements.
have [-> ->] := difference_sets sA sB; rewrite CP_intersectionE //.
set DA := [seq x <- _ | x \notin elements accB].
set DB := [seq x <- _ | x \notin elements accA].
have cop : coprimep (fromRoots B DA) (fromRoots B DB).
  apply: (coprimep_fromRoots int_embeds).
  - by apply/allP => x; rewrite mem_filter => /andP [_ /(allP iA)].
  - by apply/allP => x; rewrite mem_filter => /andP [_ /(allP iB)].
  by move=> x; rewrite !mem_filter => /andP [_ ->].
case: (fmpz_mod_poly_xgcd _ _) (xgcd_coprime xgcdP cop) => [[g u] v] [-> bez].
rewrite eqxx /= !evaluate_fromRoots.
exists (PolynomialUtils_evaluate u (getSecretS setup)),
       (PolynomialUtils_evaluate v (getSecretS setup)); split=> //.
rewrite -!evaluate_fromRoots /PolynomialUtils_evaluate /fmpzToFr /frToFmpz.
by rewrite -!hornerM -hornerD bez hornerC.
Qed.

Lemma char_poly_at_inter S T a :
  char_poly_at S a
  = char_poly_at [seq x <- S | x \in T] a
    * char_poly_at [seq x <- S | x \notin T] a.
Proof. exact: (char_poly_at_split S (mem T)). Qed.

Lemma char_poly_at_inter_sym S T a :
  sorted <%R S -> sorted <%R T ->
  char_poly_at [seq x <- T | x \in S] a
  = char_poly_at [seq x <- S | x \in T] a.
Proof.
move=> sS sT; congr (char_poly_at _ _); apply: lt_sorted_eq;
  try exact: sorted_filter_lt.
by move=> x; rewrite !mem_filter andbC.
Qed.

(** X18.  For two reachable [G1] accumulators, also after deletions,
    [generateIntersectionProof] returns a valid proof whose quotient
    witnesses are [g2^(P_(A-B)(s))] and [g2^(P_(B-A)(s))], and
    [verifyIntersectionProof] accepts it against the two digests. *)
Theorem intersection_proof_reachable setup accA accB :
  reachable setup G1_TYPE accA -> reachable setup G1_TYPE accB ->
  let proof := generateIntersectionProof accA accB setup in
  let s := getSecretS setup in
  [/\ iproof_is_valid proof = true,
      witness_QA_g2 proof
      = char_poly_at [seq x <- elements accA | x \notin elements accB] s
        *: getG2Generator setup,
      witness_QB_g2 proof
      = char_poly_at [seq x <- elements accB | x \notin elements accA] s
        *: getG2Generator setup
    & verifyIntersectionProof (getDigest accA) (getDigest accB) proof setup
      = true].
Proof.
move=> /reachable_inv invA /reachable_inv invB /=.
have [u [v [-> bez]]] := generateIntersectionProof_inv invA invB.
case: invA invB => [_ _ sA _ _ [dA _]] [_ _ sB _ _ [dB _]]; split=> //.
rewrite /verifyIntersectionProof /getDigest dA dB /=.
rewrite -/(getSecretS setup) -/(getG1Generator setup).
rewrite !(pairing_exponents pairingP) !(pairing_mul_l pairingP).
rewrite -char_poly_at_inter -(char_poly_at_inter_sym _ sA sB).
rewrite -char_poly_at_inter !eqxx /=.
by rewrite (GT_pow_add pairingP) bez (GT_pow_1 pairingP) eqxx.
Qed.

(** X19.  The verifier binds the intersection digest: with [g1^c] in place
    of the digest of a generated proof, and [P_(A-B)(s)] not zero, the proof
    is accepted exactly when [c = P_I(s)]. *)
Theorem intersection_digest_binding setup accA accB (c : Fr B) :
  NonDegenerate setup ->
  reachable setup G1_TYPE accA -> reachable setup G1_TYPE accB ->
  let proof := generateIntersectionProof accA accB setup in
  let s := getSecretS setup in
  char_poly_at [seq x <- elements accA | x \notin elements accB] s != 0 ->
  verifyIntersectionProof (getDigest accA) (getDigest accB)
    (mkIntersectionProof (mkAccumulatorDigest (c *: getG1Generator setup))
       (witness_QA_g2 proof) (witness_QB_g2 proof)
       (witness_a_g1 proof) (witness_b_g1 proof) (iproof_is_valid proof))
    setup
  = (c == char_poly_at [seq x <- elements accA | x \in elements accB] s).
Proof.
move=> nondeg /reachable_inv invA /reachable_inv invB /=.
have [u [v [-> bez]]] := generateIntersectionProof_inv invA invB.
case: invA invB => [_ _ sA _ _ [dA _]] [_ _ sB _ _ [dB _]] DA0.
rewrite /verifyIntersectionProof /getDigest dA dB /=.
rewrite -/(getSecretS setup) -/(getG1Generator setup).
rewrite !(pairing_exponents pairingP) !(pairing_mul_l pairingP).
rewrite !(GT_pow_eq nondeg) (GT_pow_add pairingP) bez (GT_pow_1 pairingP).
rewrite eqxx (char_poly_at_inter (elements accA) (elements accB)).
rewrite (char_poly_at_inter (elements accB) (elements accA)).
rewrite (char_poly_at_inter_sym _ sA sB).
rewrite (inj_eq (mulIf DA0)) eq_sym; case: eqP => [->|//].
by rewrite eqxx.
Qed.

End Intersections.

(** *** The trusted setup *)

Lemma size_t_wrap_neg (z : Z) :
  (- size_t_modulus <= z < 0)%sz -> size_t_wrap z = (z + size_t_modulus)%sz.
Proof.
move=> Hz; rewrite /size_t_wrap; symmetry.
by apply: (Z.mod_unique _ _ (-1)%sz); size_lia.
Qed.

Section Setup.

Variable B : Backend.

Implicit Types (setup ts : ExpressiveTrustedSetup B)
  (acc : ExpressiveAccumulator B) (x y : int) (a : Fr B) (S T : seq int).

(** X20.  When the length [d + 2] does not wrap, running [generatePowers]
    again on its result, on the same or another platform, returns and
    changes nothing. *)
Theorem generatePowers_idempotent pf pf' ts ts' :
  (0 <= max_degree ts <= size_t_modulus - 3)%sz ->
  generatePowers pf ts = Returned ts' ->
  generatePowers pf' ts' = Returned ts'.
Proof.
move=> [d0 dle].
have dlt : (max_degree ts + 2 < size_t_modulus)%sz by size_lia.
move=> /(generatePowers_Returned d0 dlt) ->.
have same (T : Type) (A : Allocator) (dflt : T) (f : nat -> T) :
    vector_resize A dflt (max_degree ts + 2)
      (mkseq f (Z.to_nat (max_degree ts + 2)))
    = Returns (mkseq f (Z.to_nat (max_degree ts + 2))).
  have {1}-> : (max_degree ts + 2)%sz
              = Z.of_nat (size (mkseq f (Z.to_nat (max_degree ts + 2)))).
    by rewrite size_mkseq Z2Nat.id //; lia.
  exact: vector_resize_same.
exact: (@generatePowersP _ pf' (mkExpressiveTrustedSetup _ _ _ _ _ _ _)
          _ _ d0 dlt (same _ _ _ _) (same _ _ _ _)).
Qed.

Lemma vector_resize0 (T : Type) (A : Allocator) (dflt : T) (v : seq T) :
  vector_resize A dflt 0 v = Returns [::].
Proof. by rewrite /vector_resize take0; case: Z.leb_spec => //; lia. Qed.

Lemma vector_resize_Throws (T : Type) (A : Allocator) (dflt : T) (n : Z)
    (v : seq T) e :
  vector_resize A dflt n v = Throws e ->
  e = std_length_error \/ e = std_bad_alloc.
Proof.
rewrite /vector_resize; case: Z.leb_spec => // _.
by case: Z.ltb_spec => [_ [<-]|_]; [left | case: ifP => // _ [<-]; right].
Qed.

Lemma generatePowers_empty pf ts :
  max_degree ts = (size_t_modulus - 2)%sz -> generatePowers pf ts = Undefined.
Proof.
move=> dE; rewrite /generatePowers dE.
have -> : size_t_wrap (size_t_modulus - 2 + 2) = 0%sz by [].
by rewrite !vector_resize0 generatePowers_loopS.
Qed.

Lemma generatePowers_one pf ts :
  max_degree ts = (size_t_modulus - 1)%sz ->
  generatePowers pf ts <> Undefined.
Proof.
move=> dE; rewrite /generatePowers dE.
have -> : size_t_wrap (size_t_modulus - 1 + 2) = 1%sz by [].
case r1: (vector_resize _ _ _ _) => [powers1|e] //.
case r2: (vector_resize _ _ _ _) => [powers2|e] //.
have s1 : size powers1 = 1%N by exact: size_vector_resize r1.
have s2 : size powers2 = 1%N by exact: size_vector_resize r2.
by rewrite generatePowers_loopS /= s1 s2.
Qed.

(** X21.  For a [size_t] bound [d], the behaviour of [generatePowers] is
    undefined exactly when [d = SIZE_MAX - 1]: the vectors are resized to
    length [0], the loop bound [d + 1] is [SIZE_MAX], and the first
    iteration writes past the end.  For every other bound the call returns
    or is left by an exception of [resize], which is [std::length_error]
    or [std::bad_alloc]. *)
Theorem generatePowers_undefined pf ts :
  is_size_t (max_degree ts) ->
  (generatePowers pf ts = Undefined
   <-> max_degree ts = (size_t_modulus - 2)%sz)
  /\ (forall e ts', generatePowers pf ts = Raised e ts' ->
      e = std_length_error \/ e = std_bad_alloc).
Proof.
move=> /andP [/Z.leb_le d0 /Z.ltb_lt dlt]; split; last first.
  move=> e ts'; rewrite /generatePowers.
  case r1: (vector_resize _ _ _ _) => [powers1|e1]; last first.
    by move=> [<- _]; exact: vector_resize_Throws r1.
  case r2: (vector_resize _ _ _ _) => [powers2|e2]; last first.
    by move=> [<- _]; exact: vector_resize_Throws r2.
  by case: (generatePowers_loop _ _ _).
split; last exact: generatePowers_empty.
move=> gN.
have [dle|dE|//] :
  [\/ (max_degree ts <= size_t_modulus - 3)%sz,
      max_degree ts = (size_t_modulus - 1)%sz
    | max_degree ts = (size_t_modulus - 2)%sz].
- have [?|?] := Z_le_gt_dec (max_degree ts) (size_t_modulus - 3).
    by constructor 1.
  have [?|?] := Z.eq_dec (max_degree ts) (size_t_modulus - 1).
    by constructor 2.
  by constructor 3; lia.
- have dlt2 : (max_degree ts + 2 < size_t_modulus)%sz by size_lia.
  have wn : size_t_wrap (max_degree ts + 2) = (max_degree ts + 2)%sz.
    by apply: size_t_wrap_small; size_lia.
  move: gN (@generatePowersP _ pf ts); rewrite /generatePowers wn.
  case r1: (vector_resize _ _ _ _) => [powers1|e] //.
  case r2: (vector_resize _ _ _ _) => [powers2|e] //.
  by move=> gN /(_ powers1 powers2 d0 dlt2 erefl erefl); rewrite gN.
- by case: (generatePowers_one dE gN).
Qed.

(** X22.  A negative index is converted to a [size_t] of at least
    [2^64 - 2^31]: over a setup with its powers published and
    [d + 2 <= 2^64 - 2^31], [getG2_s_pow] throws [std::out_of_range] for
    every negative [int]. *)
Theorem getG2_s_pow_negative ts (i : int) :
  powers_published ts ->
  (0 <= max_degree ts)%sz ->
  (max_degree ts + 2 <= size_t_modulus + int_min)%sz ->
  is_int i -> (Z_of_int i < 0)%sz ->
  getG2_s_pow ts i = Throws std_out_of_range.
Proof.
move=> [_ pub] d0 dle /andP [/Z.leb_le ilo _] ineg.
rewrite /getG2_s_pow /vector_at /size_t_of_int pub size_map size_iota.
have -> : size_t_wrap (Z_of_int i) = (Z_of_int i + size_t_modulus)%sz.
  by apply: size_t_wrap_neg; size_lia.
by case: Z.ltb_spec => //; size_lia.
Qed.

End Setup.

(** *** Membership proofs against other elements and digests *)

Section Membership.

Variable B : Backend.
Hypothesis pairingP : PairingLaws B.

Variable setup : ExpressiveTrustedSetup B.
Hypothesis nondeg : NonDegenerate setup.

Implicit Types (acc : ExpressiveAccumulator B) (x y : int).

Lemma generateMembershipProof_present type acc x :
  acc_inv setup type acc -> x \in elements acc ->
  generateMembershipProof acc x
  = mkMembershipProof
      (char_poly_at (set_erase x (elements acc)) (getSecretS setup)
         *: getG2Generator setup) true.
Proof.
move=> [Hs _ _ _ _ _] xS; rewrite /generateMembershipProof /set_find xS /=.
by rewrite Hs CP_evaluateE.
Qed.

(** X23.  A membership proof is bound to its element: the proof generated
    for a member [x] of a reachable [G1] accumulator verifies for [y] only
    if [y] and [x] are the same scalar, or [P_(S-x)(s) = 0]. *)
Theorem membership_proof_wrong_element acc x y :
  reachable setup G1_TYPE acc -> x \in elements acc ->
  verifyMembershipProof (getDigest acc) y (generateMembershipProof acc x)
    setup
  = (char_poly_at (set_erase x (elements acc)) (getSecretS setup) == 0)
    || (y%:~R == x%:~R :> Fr B).
Proof.
move=> /reachable_inv inv xS.
rewrite (generateMembershipProof_present inv xS).
case: inv => _ _ _ _ _ [dA _]; rewrite /getDigest dA.
rewrite -/(getSecretS setup) -/(getG1Generator setup).
rewrite (verifyMembershipProof_exponents pairingP) (GT_pow_eq nondeg).
rewrite (char_poly_at_rem _ xS) mulrC -/(set_erase _ _).
rewrite -subr_eq0 -mulrBr mulf_eq0; congr (_ || _).
by rewrite subr_eq0 (inj_eq (addrI _)) eqr_opp eq_sym.
Qed.

(** X24.  A membership proof is bound to the digest it was made for: after
    a new element [y] is added, the proof generated before for a member
    [x] verifies against the new digest only if [P_S(s) = 0] or
    [s = y + 1]. *)
Theorem membership_proof_stale acc x y :
  reachable setup G1_TYPE acc -> x \in elements acc ->
  y \notin elements acc ->
  verifyMembershipProof (getDigest (addElement acc y).1) x
    (generateMembershipProof acc x) setup
  = (char_poly_at (elements acc) (getSecretS setup) == 0)
    || (getSecretS setup == y%:~R + 1).
Proof.
move=> racc xS yS; have inv := reachable_inv racc.
rewrite (generateMembershipProof_present inv xS).
have -> : getDigest (addElement acc y).1 = new_digest (addElement acc y).2.
  by [].
rewrite (addElement_absent_proof inv yS) /=.
rewrite -/(getSecretS setup) -/(getG1Generator setup).
rewrite (verifyMembershipProof_exponents pairingP) (GT_pow_eq nondeg).
rewrite [_ * (_ - x%:~R)]mulrC -/(set_erase _ _) -(char_poly_at_rem _ xS).
set P := char_poly_at _ _.
have -> : ((getSecretS setup - y%:~R) * P == P)
          = (P * (getSecretS setup - y%:~R - 1) == 0).
  by rewrite mulrBr mulr1 subr_eq0 mulrC.
by rewrite mulf_eq0 subr_eq0 subr_eq [1 + _]addrC.
Qed.

(** X25.  After [deleteElement(x)], the membership proof generated for [x]
    before verifies against the new digest only if [P_(S-x)(s) = 0] or
    [s = x + 1]. *)
Theorem membership_proof_revoked acc x :
  reachable setup G1_TYPE acc -> x \in elements acc ->
  verifyMembershipProof (getDigest (deleteElement acc x).1) x
    (generateMembershipProof acc x) setup
  = (char_poly_at (set_erase x (elements acc)) (getSecretS setup) == 0)
    || (getSecretS setup == x%:~R + 1).
Proof.
move=> /reachable_inv inv xS.
rewrite (generateMembershipProof_present inv xS).
case: inv => Hs Ht _ _ Hp _.
rewrite /deleteElement /set_find xS /= is_member_generate xS /=.
rewrite /getDigest /updateAccumulatorValue /= Ht Hs CP_evaluateE /= Hp.
rewrite (verifyMembershipProof_exponents pairingP) (GT_pow_eq nondeg).
set Q := char_poly_at _ _.
have -> : (Q == Q * (getSecretS setup - x%:~R))
          = (Q * (getSecretS setup - x%:~R - 1) == 0).
  by rewrite [Q * (_ - 1)]mulrBr mulr1 subr_eq0 eq_sym.
by rewrite mulf_eq0 subr_eq0 subr_eq [1 + _]addrC.
Qed.

(** X26.  For a reachable [G2] accumulator, the proof generated for a
    member is checked against the identity that [getDigest] returns: it
    verifies only if [P_S(s) = 0]. *)
Theorem G2_membership_proof acc x :
  reachable setup G2_TYPE acc -> x \in elements acc ->
  verifyMembershipProof (getDigest acc) x (generateMembershipProof acc x)
    setup
  = (char_poly_at (elements acc) (getSecretS setup) == 0).
Proof.
move=> /reachable_inv inv xS.
rewrite (generateMembershipProof_present inv xS).
case: inv => _ _ _ _ _ [dA _]; rewrite /getDigest dA.
rewrite (AccumulatorDigest_new0 setup).
rewrite (verifyMembershipProof_exponents pairingP) (GT_pow_eq nondeg).
by rewrite mulrC /set_erase -(char_poly_at_rem _ xS) eq_sym.
Qed.

End Membership.

(** ** The concrete backend *)

Lemma rat_pairingP : PairingLaws rat_backend.
Proof.
split=> /=.
- by move=> a P Q; rewrite /GRing.scale /= mulrA.
- by move=> a P Q; rewrite /GRing.scale /= mulrCA.
- by move=> x a b; rewrite mulrA [b * a]mulrC.
- by move=> x a b; rewrite mulrDl.
- by move=> x; rewrite mul1r.
Qed.

Lemma monic_xgcdP (F : fieldType) (p q : {poly F}) :
  let: (g, u, v) := monic_xgcd p q in
  [/\ u * p + v * q = g, g %| p, g %| q & (g == 0) || (g \is monic)].
Proof.
rewrite /monic_xgcd; set e := egcdp p q; set g0 := e.1 * p + e.2 * q.
have eg : g0 %= gcdp p q by rewrite eqp_sym; exact: egcdpE.
split; first by rewrite -!scalerAl -scalerDr.
- case: (eqVneq g0 0) => [g00|gn0].
    move: eg; rewrite g00 scaler0 eqp_sym eqp0 gcdp_eq0 => /andP [/eqP -> _].
    exact: dvdp0.
  by rewrite dvdpZl ?invr_eq0 ?lead_coef_eq0 // (eqp_dvdl _ eg) dvdp_gcdl.
- case: (eqVneq g0 0) => [g00|gn0].
    move: eg; rewrite g00 scaler0 eqp_sym eqp0 gcdp_eq0 => /andP [_ /eqP ->].
    exact: dvdp0.
  by rewrite dvdpZl ?invr_eq0 ?lead_coef_eq0 // (eqp_dvdl _ eg) dvdp_gcdr.
case: (eqVneq g0 0) => [->|gn0]; first by rewrite scaler0 eqxx.
by rewrite monicE lead_coefZ mulVf ?lead_coef_eq0 // eqxx orbT.
Qed.

Lemma rat_xgcdP : XgcdContract rat_backend.
Proof. by move=> p q; exact: monic_xgcdP. Qed.

Lemma rat_int_embeds : IntEmbeds rat_backend.
Proof. by move=> x y _ _ /intr_inj. Qed.

(** ** Concrete runs *)

Example example_setup_generated :
  generatePowers example_platform example_setup0 = Returned example_setup.
Proof.
have d0 : (0 <= max_degree example_setup0)%sz by [].
have dlt : (max_degree example_setup0 + 2 < size_t_modulus)%sz by [].
exact: (@generatePowersP rat_backend example_platform example_setup0
          (nseq 102 0) (nseq 102 0) d0 dlt erefl erefl).
Qed.

Example example_setup_published : powers_published example_setup.
Proof.
have d0 : (0 <= 100)%sz by [].
have dlt : (100 + 2 < size_t_modulus)%sz by [].
exact: (@powers_published_generatePowers rat_backend example_platform
          example_setup0 example_setup d0 dlt example_setup_generated).
Qed.

Example example_A_built : built_by_add example_setup G1_TYPE example_A.
Proof. by apply: built_by_add_all => //; exact: built_new. Qed.

Example example_B_built : built_by_add example_setup G1_TYPE example_B.
Proof. by apply: built_by_add_all => //; exact: built_new. Qed.

Example example_G2_built : built_by_add example_setup G2_TYPE example_G2.
Proof. by apply: built_by_add_all => //; exact: built_new. Qed.

Example example_A_elements : elements example_A = [:: 1; 3; 5; 7; 9].
Proof. by []. Qed.

(** [P_A(4) = 3 * 1 * (-1) * (-3) * (-5) = -45] and the generator is [1]. *)
Example example_A_digest : value (getDigest example_A) == -45.
Proof. by []. Qed.

Example example_B_digest : value (getDigest example_B) == -40.
Proof. by []. Qed.

Example example_delete :
  elements (deleteElement example_A 7).1 = [:: 1; 3; 5; 9].
Proof. by []. Qed.


(** A bound whose length [d + 2] exceeds [max_size()]: the first [resize]
    throws. *)
Example length_error_setup_run :
  generatePowers example_platform
    (@ExpressiveTrustedSetup_new rat_backend 4 7 (Z.pow 2 62))
  = Raised std_length_error
      (@mkExpressiveTrustedSetup rat_backend 4 7 (Z.pow 2 62) 1 1 [::] [::]).
Proof. by []. Qed.

(** ** Counterexamples to the claims as stated *)

(** C2 as stated fails: the three pairing equations hold for this proof,
    whose fields are those of a proof for [example_A] and [example_B]
    ([P_I(4) = 5], [Q_A(4) = -9], [Q_B(4) = -8] and
    [(-1) * (-9) + 1 * (-8) = 1]), but its [is_valid] is false and the
    verifier rejects it. *)
Lemma verifyIntersectionProof_counterexample :
  let digest_A := getDigest example_A in
  let digest_B := getDigest example_B in
  let proof : IntersectionProof rat_backend :=
    mkIntersectionProof (@mkAccumulatorDigest rat_backend 5)
      (-9 : rat) (-8 : rat) (-1 : rat) (1 : rat) false in
  [/\ pairing (value digest_A) (getG2Generator example_setup)
      = pairing (value (intersection_digest_g1 proof)) (witness_QA_g2 proof),
      pairing (value digest_B) (getG2Generator example_setup)
      = pairing (value (intersection_digest_g1 proof)) (witness_QB_g2 proof),
      GT_mul (pairing (witness_a_g1 proof) (witness_QA_g2 proof))
             (pairing (witness_b_g1 proof) (witness_QB_g2 proof))
      = pairing (getG1Generator example_setup) (getG2Generator example_setup)
    & verifyIntersectionProof digest_A digest_B proof example_setup = false].
Proof. by split=> //; apply/eqP. Qed.

(** C3 as stated fails: [13] is not in [example_A], yet the proof with
    [is_member = true] and witness [g2^5] is accepted, because
    [P_A(4) = -45 = (4 - 13) * 5]. *)
Lemma membership_forgery_counterexample :
  [/\ reachable example_setup G1_TYPE example_A,
      13 \notin elements example_A
    & exists proof : MembershipProof rat_backend,
        [/\ is_member proof = true,
            witness_g2 proof = 5 *: getG2Generator example_setup
          & verifyMembershipProof (getDigest example_A) 13 proof
              example_setup = true]].
Proof.
split=> //; first exact/built_by_add_reachable/example_A_built.
by exists (@mkMembershipProof rat_backend (5 : rat) true).
Qed.


(** ** The theorems at concrete inputs

    Each theorem that has hypotheses is applied to the concrete backend and
    the concrete accumulators above. *)

Lemma intersection_proof_complete_witness :
  let proof :=
    generateIntersectionProof example_A example_B example_setup in
  let I := [seq x <- elements example_A | x \in elements example_B] in
  [/\ iproof_is_valid proof = true,
      value (intersection_digest_g1 proof)
      = char_poly_at I (getSecretS example_setup)
          *: getG1Generator example_setup
    & verifyIntersectionProof (getDigest example_A) (getDigest example_B)
        proof example_setup = true].
Proof.
exact: (intersection_proof_complete rat_pairingP rat_int_embeds rat_xgcdP
          example_A_built example_B_built).
Defined.

Lemma membership_verifier_spec_witness :
  let D := getDigest example_A in
  let s := getSecretS example_setup in
  [/\ is_member (generateMembershipProof example_A 6) = false,
      verifyMembershipProof D 6 (generateMembershipProof example_A 6)
        example_setup = false,
      forall proof : MembershipProof rat_backend, is_member proof = true ->
        (verifyMembershipProof D 6 proof example_setup = true <->
         pairing (value D) (getG2Generator example_setup)
         = pairing ((s - 6%:~R) *: getG1Generator example_setup)
             (witness_g2 proof))
    & s - 6%:~R != 0 ->
      verifyMembershipProof D 6
        (mkMembershipProof
           ((char_poly_at (elements example_A) s / (s - 6%:~R))
              *: getG2Generator example_setup) true)
        example_setup = true].
Proof.
exact: (membership_verifier_spec rat_pairingP
          (built_by_add_reachable example_A_built) (x := 6) isT).
Defined.

Lemma membership_proof_complete_witness :
  let proof := generateMembershipProof example_A 5 in
  [/\ is_member proof = true,
      witness_g2 proof
      = (\prod_(y <- elements example_A | y != 5)
           (getSecretS example_setup - y%:~R))
          *: getG2Generator example_setup
    & verifyMembershipProof (getDigest example_A) 5 proof example_setup
      = true].
Proof.
exact: (membership_proof_complete rat_pairingP
          (built_by_add_reachable example_A_built) (x := 5) isT).
Defined.

Lemma verifyUpdateProof_spec_witness :
  let setup := example_setup in
  let proof := (addElement example_A 10).2 in
  let x : rat := (element proof)%:~R in
  let g2 := getG2Generator setup in
  let g2_s := getSecretS setup *: g2 in
  let D_old := value (old_digest proof) in
  let D_new := value (new_digest proof) in
  match op_type proof with
  | ADD =>
      verifyUpdateProof proof setup = true <->
      pairing D_new g2
      = GT_mul (pairing D_old g2_s) (GT_pow (pairing D_old g2) (- x))
  | DELETE =>
      verifyUpdateProof proof setup = true <->
      verifyMembershipProof (old_digest proof) (element proof)
        (membership_proof proof) setup = true
      /\ pairing D_old g2
         = GT_mul (pairing D_new g2_s) (GT_pow (pairing D_new g2) (- x))
  end.
Proof.
have d0 : (0 <= 100)%sz by [].
exact: (@verifyUpdateProof_spec rat_backend example_setup
          (addElement example_A 10).2 d0 example_setup_published
          (erefl true)).
Defined.

Lemma digest_invariant_witness :
  [/\ digest_is example_G2
        (char_poly_at (elements example_G2)
           (getSecretS (trusted_setup example_G2))),
      char_poly_at [::] (getSecretS example_setup) = 1,
      elements (ExpressiveAccumulator_new example_setup G2_TYPE) = [::]
    & valueG2 (digest_g2 (ExpressiveAccumulator_new example_setup G2_TYPE))
      = getG2Generator example_setup].
Proof.
exact: (digest_invariant (built_by_add_reachable example_G2_built)).
Defined.

Lemma deleteElement_absent_witness :
  let: (acc', proof) := deleteElement example_A 42 in
  [/\ acc' = example_A,
      uproof_is_valid proof = false,
      old_digest proof = getDigest example_A,
      new_digest proof = getDigest example_A
    & forall setup, verifyUpdateProof proof setup = false].
Proof. exact: (@deleteElement_absent rat_backend example_A 42 isT). Defined.

Lemma addElement_present_witness :
  let: (acc', proof) := addElement example_A 3 in
  [/\ acc' = example_A,
      old_digest proof = new_digest proof
    & uproof_is_valid proof = true].
Proof. exact: (@addElement_present rat_backend example_A 3 isT). Defined.


Lemma other_digest_untouched_witness :
  [/\ digest_g1 (ExpressiveAccumulator_new example_setup G2_TYPE)
      = AccumulatorDigest_new,
      is_identity (digest_g1 example_G2)
    & forall x,
        digest_g1 (addElement example_G2 x).1 = digest_g1 example_G2
        /\ digest_g1 (deleteElement example_G2 x).1 = digest_g1 example_G2].
Proof.
exact: (other_digest_untouched (built_by_add_reachable example_G2_built)).
Defined.

(** ** The further properties at concrete inputs *)

Example example_setup_bound : (0 <= max_degree example_setup)%sz.
Proof. by []. Qed.

Example example_setup_small :
  (max_degree example_setup + 2 <= size_t_modulus + int_min)%sz.
Proof. by []. Qed.

Example example_setup_nondegenerate : NonDegenerate example_setup.
Proof. by move=> a b; rewrite /= /GT_pow /= !mulr1. Qed.

Example example_A_reachable : reachable example_setup G1_TYPE example_A.
Proof. exact: built_by_add_reachable example_A_built. Qed.

Example example_B_reachable : reachable example_setup G1_TYPE example_B.
Proof. exact: built_by_add_reachable example_B_built. Qed.

Example example_G2_reachable : reachable example_setup G2_TYPE example_G2.
Proof. exact: built_by_add_reachable example_G2_built. Qed.

Example example_I_reachable : reachable example_setup G1_TYPE example_I.
Proof.
by apply: built_by_add_reachable; apply: built_by_add_all => //;
   exact: built_new.
Qed.

Example example_A_updated_reachable :
  reachable example_setup G1_TYPE example_A_updated.
Proof.
by apply: reachable_delete => //; apply: reachable_add => //;
   exact: example_A_reachable.
Qed.

Example example_A_updated_elements :
  elements example_A_updated = [:: 1; 3; 5; 9; 10].
Proof. by []. Qed.

Example example_A_sorted : sorted <%R (elements example_A).
Proof. by []. Qed.

Example example_B_sorted : sorted <%R (elements example_B).
Proof. by []. Qed.

Example example_A_has_5 : 5 \in elements example_A.
Proof. by []. Qed.

Example example_A_has_7 : 7 \in elements example_A.
Proof. by []. Qed.

Example example_A_lacks_10 : 10 \notin elements example_A.
Proof. by []. Qed.

Example example_G2_has_10 : 10 \in elements example_G2.
Proof. by []. Qed.

Example example_I_elements :
  elements example_I =i [predI elements example_A & elements example_B].
Proof.
have -> : elements example_I
          = [seq x <- elements example_A | x \in elements example_B] by [].
by move=> x; rewrite mem_filter andbC.
Qed.

Example example_A_round_trip_elements :
  elements example_A
  =i elements (deleteElement (addElement example_A 10).1 10).1.
Proof. by move=> x. Qed.

Example example_A_only_nonzero :
  char_poly_at [seq x <- elements example_A | x \notin elements example_B]
    (getSecretS example_setup) != 0.
Proof.
have -> : [seq x <- elements example_A | x \notin elements example_B]
          = [:: 1; 7] by [].
by rewrite /char_poly_at !big_cons big_nil.
Qed.

Lemma history_independence_witness :
  example_A = (deleteElement (addElement example_A 10).1 10).1.
Proof.
exact: (history_independence example_A_reachable
          (reachable_delete (reachable_add example_A_reachable (x := 10) isT)
             (x := 10) isT)
          example_A_round_trip_elements).
Defined.

Lemma add_delete_round_trip_witness :
  (10 \notin elements example_A ->
   (deleteElement (addElement example_A 10).1 10).1 = example_A)
  /\ (10 \in elements example_A ->
      (addElement (deleteElement example_A 10).1 10).1 = example_A).
Proof.
exact: (add_delete_round_trip example_A_reachable (x := 10) isT).
Defined.

Lemma membership_lookup_after_update_witness :
  is_member (generateMembershipProof (addElement example_A 10).1 5)
  = (5 == 10 :> int) || is_member (generateMembershipProof example_A 5)
  /\ is_member (generateMembershipProof (deleteElement example_A 10).1 5)
     = (5 != 10 :> int) && is_member (generateMembershipProof example_A 5).
Proof.
exact: (membership_lookup_after_update 10 5 example_A_reachable).
Defined.

Lemma addElement_proof_verifies_witness :
  verifyUpdateProof (addElement example_A 10).2 example_setup = true.
Proof.
exact: (addElement_proof_verifies rat_pairingP example_setup_bound
          example_setup_published example_A_reachable example_A_lacks_10).
Defined.

Lemma deleteElement_proof_verifies_witness :
  verifyUpdateProof (deleteElement example_A 7).2 example_setup = true.
Proof.
exact: (deleteElement_proof_verifies rat_pairingP example_setup_bound
          example_setup_published example_A_reachable example_A_has_7).
Defined.

Lemma G2_addElement_proof_witness :
  [/\ old_digest (addElement example_G2 12).2 = AccumulatorDigest_new,
      new_digest (addElement example_G2 12).2 = AccumulatorDigest_new
    & verifyUpdateProof (addElement example_G2 12).2 example_setup = true].
Proof.
exact: (G2_addElement_proof rat_pairingP example_setup_bound
          example_setup_published 12 example_G2_reachable).
Defined.

Lemma addElement_duplicate_proof_witness :
  verifyUpdateProof (addElement example_A 5).2 example_setup
  = (char_poly_at (elements example_A) (getSecretS example_setup) == 0)
    || (getSecretS example_setup == 5%:~R + 1).
Proof.
exact: (addElement_duplicate_proof rat_pairingP example_setup_bound
          example_setup_published example_setup_nondegenerate
          example_A_reachable example_A_has_5).
Defined.

Lemma update_proof_wrong_element_witness :
  let p := (addElement example_A 10).2 in
  verifyUpdateProof
    (mkUpdateProof ADD (old_digest p) (new_digest p) 11
       (membership_proof p) true) example_setup
  = (char_poly_at (elements example_A) (getSecretS example_setup) == 0)
    || (11%:~R == 10%:~R :> Fr rat_backend).
Proof.
exact: (update_proof_wrong_element rat_pairingP example_setup_bound
          example_setup_published example_setup_nondegenerate 11
          example_A_reachable example_A_lacks_10).
Defined.

Lemma G2_deleteElement_proof_witness :
  verifyUpdateProof (deleteElement example_G2 10).2 example_setup
  = (char_poly_at (elements example_G2) (getSecretS example_setup) == 0).
Proof.
exact: (G2_deleteElement_proof rat_pairingP example_setup_bound
          example_setup_published example_setup_nondegenerate
          example_G2_reachable example_G2_has_10).
Defined.

Lemma digest_update_law_witness :
  let s := getSecretS example_setup in
  (10 \notin elements example_A ->
   value (getDigest (addElement example_A 10).1)
   = (s - 10%:~R) *: value (getDigest example_A))
  /\ (10 \in elements example_A ->
      value (getDigest example_A)
      = (s - 10%:~R) *: value (getDigest (deleteElement example_A 10).1)).
Proof. exact: (digest_update_law 10 example_A_reachable). Defined.

Lemma add_all_perm_witness :
  add_all (ExpressiveAccumulator_new example_setup G1_TYPE)
    [:: 1; 3; 5; 7; 9]
  = add_all (ExpressiveAccumulator_new example_setup G1_TYPE)
      [:: 9; 7; 5; 3; 1].
Proof.
exact: (@add_all_perm rat_backend example_setup G1_TYPE [:: 1; 3; 5; 7; 9]
          [:: 9; 7; 5; 3; 1] isT isT).
Defined.

Lemma CP_intersection_spec_witness :
  [/\ sorted <%R (CP_intersection (elements example_A) (elements example_B)),
      CP_intersection (elements example_A) (elements example_B)
      =i [predI elements example_A & elements example_B]
    & CP_intersection (elements example_A) (elements example_B)
      = CP_intersection (elements example_B) (elements example_A)].
Proof. exact: (CP_intersection_spec example_A_sorted example_B_sorted). Defined.

Lemma digest_is_identity_witness :
  is_identity (getDigest example_A)
  = has (fun x : int => getSecretS example_setup == x%:~R)
      (elements example_A).
Proof. exact: (digest_is_identity example_A_reachable isT). Defined.

Lemma intersection_digest_of_accumulator_witness :
  intersection_digest_g1
    (generateIntersectionProof example_A example_B example_setup)
  = getDigest example_I.
Proof.
exact: (intersection_digest_of_accumulator example_A_reachable
          example_B_reachable example_I_reachable example_I_elements).
Defined.

Lemma intersection_proof_symmetric_witness :
  let pAB := generateIntersectionProof example_A example_B example_setup in
  let pBA := generateIntersectionProof example_B example_A example_setup in
  [/\ intersection_digest_g1 pBA = intersection_digest_g1 pAB,
      witness_QA_g2 pBA = witness_QB_g2 pAB
    & witness_QB_g2 pBA = witness_QA_g2 pAB].
Proof.
exact: (intersection_proof_symmetric example_setup example_A_sorted
          example_B_sorted).
Defined.

Lemma intersection_proof_reachable_witness :
  let proof :=
    generateIntersectionProof example_A_updated example_B example_setup in
  let s := getSecretS example_setup in
  [/\ iproof_is_valid proof = true,
      witness_QA_g2 proof
      = char_poly_at
          [seq x <- elements example_A_updated | x \notin elements example_B]
          s
        *: getG2Generator example_setup,
      witness_QB_g2 proof
      = char_poly_at
          [seq x <- elements example_B | x \notin elements example_A_updated]
          s
        *: getG2Generator example_setup
    & verifyIntersectionProof (getDigest example_A_updated)
        (getDigest example_B) proof example_setup
      = true].
Proof.
exact: (intersection_proof_reachable rat_pairingP rat_int_embeds rat_xgcdP
          example_A_updated_reachable example_B_reachable).
Defined.

Lemma intersection_digest_binding_witness :
  let proof := generateIntersectionProof example_A example_B example_setup in
  let s := getSecretS example_setup in
  verifyIntersectionProof (getDigest example_A) (getDigest example_B)
    (mkIntersectionProof
       (@mkAccumulatorDigest rat_backend
          ((6 : Fr rat_backend) *: getG1Generator example_setup))
       (witness_QA_g2 proof) (witness_QB_g2 proof)
       (witness_a_g1 proof) (witness_b_g1 proof) (iproof_is_valid proof))
    example_setup
  = ((6 : Fr rat_backend)
     == char_poly_at [seq x <- elements example_A | x \in elements example_B]
          s).
Proof.
exact: (intersection_digest_binding rat_pairingP rat_int_embeds rat_xgcdP
          (6 : Fr rat_backend) example_setup_nondegenerate example_A_reachable
          example_B_reachable example_A_only_nonzero).
Defined.

Lemma generatePowers_idempotent_witness :
  generatePowers example_platform example_setup = Returned example_setup.
Proof.
have bound : (0 <= 100 <= size_t_modulus - 3)%sz by [].
exact: (@generatePowers_idempotent rat_backend example_platform
          example_platform example_setup0 example_setup bound
          example_setup_generated).
Defined.

Lemma generatePowers_undefined_witness :
  (generatePowers example_platform overflow_setup = Undefined
   <-> max_degree overflow_setup = (size_t_modulus - 2)%sz)
  /\ (forall e ts',
        generatePowers example_platform overflow_setup = Raised e ts' ->
        e = std_length_error \/ e = std_bad_alloc).
Proof.
exact: (@generatePowers_undefined rat_backend example_platform overflow_setup
          isT).
Defined.

Lemma getG2_s_pow_negative_witness :
  getG2_s_pow example_setup (-1) = Throws std_out_of_range.
Proof.
have neg : (Z_of_int (-1) < 0)%sz by [].
exact: (@getG2_s_pow_negative rat_backend example_setup (-1)
          example_setup_published example_setup_bound example_setup_small
          isT neg).
Defined.

Lemma membership_proof_wrong_element_witness :
  verifyMembershipProof (getDigest example_A) 6
    (generateMembershipProof example_A 5) example_setup
  = (char_poly_at (set_erase 5 (elements example_A))
       (getSecretS example_setup) == 0)
    || (6%:~R == 5%:~R :> Fr rat_backend).
Proof.
exact: (membership_proof_wrong_element rat_pairingP
          example_setup_nondegenerate 6 example_A_reachable example_A_has_5).
Defined.

Lemma membership_proof_stale_witness :
  verifyMembershipProof (getDigest (addElement example_A 10).1) 5
    (generateMembershipProof example_A 5) example_setup
  = (char_poly_at (elements example_A) (getSecretS example_setup) == 0)
    || (getSecretS example_setup == 10%:~R + 1).
Proof.
exact: (membership_proof_stale rat_pairingP example_setup_nondegenerate
          example_A_reachable example_A_has_5 example_A_lacks_10).
Defined.

Lemma membership_proof_revoked_witness :
  verifyMembershipProof (getDigest (deleteElement example_A 5).1) 5
    (generateMembershipProof example_A 5) example_setup
  = (char_poly_at (set_erase 5 (elements example_A))
       (getSecretS example_setup) == 0)
    || (getSecretS example_setup == 5%:~R + 1).
Proof.
exact: (membership_proof_revoked rat_pairingP example_setup_nondegenerate
          example_A_reachable example_A_has_5).
Defined.

Lemma G2_membership_proof_witness :
  verifyMembershipProof (getDigest example_G2) 10
    (generateMembershipProof example_G2 10) example_setup
  = (char_poly_at (elements example_G2) (getSecretS example_setup) == 0).
Proof.
exact: (G2_membership_proof rat_pairingP example_setup_nondegenerate
          example_G2_reachable example_G2_has_10).
Defined.
